(** * Stoix: multi-step return targets and the total-timestep helper

    A shallow embedding of [stoix/utils/multistep.py] and
    [stoix/utils/total_timestep_checker.py].

    Numbers.  The arrays of the source hold floating-point numbers.  The
    embedding is written over an arbitrary carrier [F] with the operations
    the source applies to array elements ([Scalar]); nothing is assumed of
    them unless a statement names the law it uses.  Statements that need the
    laws of exact arithmetic take a commutative-ring structure on [F]
    ([ExactArith]).

    Arrays.  A rank-2 array is its static second dimension together with its
    rows ([ndarray]); a rank-1 array is a list.  The source works on (time,
    batch) arrays after [jnp.swapaxes(x, 0, 1)].

    JAX.  The embedding relies on these behaviours of the library:
    element-wise arithmetic on arrays of one shape is element by element,
    and a dimension of size 1 is broadcast; [jnp.array] of an empty Python
    list has shape [(0,)];
    [jnp.concatenate] raises TypeError on operands of different rank or
    that differ in another dimension; [a[-1]] raises IndexError on an axis
    of size 0; [jax.lax.scan] with [reverse=True] threads the carry from
    the last element to the first; [jax.lax.stop_gradient] changes no
    value. *)

From Stdlib Require Import List ZArith Lia Bool Ring.
From Stdlib Require Import QArith Qcanon.
From Stdlib Require Import Reals Lra.
Import ListNotations.

Set Implicit Arguments.
#[local] Close Scope Qc_scope.
#[local] Close Scope Q_scope.
#[local] Close Scope R_scope.
#[local] Open Scope nat_scope.

(** ** Element arithmetic *)

Class Scalar (F : Type) : Type := {
  zero : F;
  one : F;
  add : F -> F -> F;
  sub : F -> F -> F;
  mul : F -> F -> F
}.

(** [jnp.exp] and [jnp.minimum] on elements. *)
Class Transcendental (F : Type) : Type := {
  exp : F -> F;
  minimum : F -> F -> F
}.

(** Exact arithmetic: the operations form a commutative ring. *)
Class ExactArith (F : Type) {Sc : Scalar F} : Type := {
  opp : F -> F;
  exact_ring : ring_theory zero one add mul sub opp (@eq F)
}.

Arguments ExactArith F {Sc}.

Declare Scope scalar_scope.
Delimit Scope scalar_scope with sc.
Infix ".+" := add (at level 50, left associativity) : scalar_scope.
Infix ".-" := sub (at level 50, left associativity) : scalar_scope.
Infix ".*" := mul (at level 40, left associativity) : scalar_scope.
Local Open Scope scalar_scope.

#[export] Instance Z_Scalar : Scalar Z :=
  {| zero := 0%Z; one := 1%Z; add := Z.add; sub := Z.sub; mul := Z.mul |}.

#[export] Instance Qc_Scalar : Scalar Qc :=
  {| zero := 0%Qc; one := 1%Qc; add := Qcplus; sub := Qcminus; mul := Qcmult |}.

#[export] Instance R_Scalar : Scalar R :=
  {| zero := 0%R; one := 1%R; add := Rplus; sub := Rminus; mul := Rmult |}.

#[export] Instance R_Transcendental : Transcendental R :=
  {| exp := Rtrigo_def.exp; minimum := Rmin |}.

(** ** Python exceptions and results *)

Inductive error : Type :=
| TypeError
| IndexError
| ZeroDivisionError.

Inductive result (A : Type) : Type :=
| Ok (a : A)
| Err (e : error).

Arguments Ok {A} a.
Arguments Err {A} e.

Definition bind {A B : Type} (m : result A) (k : A -> result B) : result B :=
  match m with
  | Ok a => k a
  | Err e => Err e
  end.

Notation "x <- m ;; k" := (bind m (fun x => k))
  (at level 61, m at next level, right associativity).

(** ** Lists as Python sequences *)

Definition zip_with {A B C : Type} (f : A -> B -> C) (xs : list A) (ys : list B)
  : list C :=
  map (fun p => f (fst p) (snd p)) (combine xs ys).

(** [xs[i:]] for a Python integer [i]: a negative start counts from the end
    and is clamped at the beginning. *)
Definition slice_from {A : Type} (i : Z) (xs : list A) : list A :=
  if (i <? 0)%Z
  then skipn (length xs - Z.to_nat (- i)) xs
  else skipn (Z.to_nat i) xs.

(** [xs[i:j]] for [0 <= i <= j]. *)
Definition slice {A : Type} (i j : nat) (xs : list A) : list A :=
  firstn (j - i) (skipn i xs).

(** [[x] * k]: the empty list when [k <= 0]. *)
Definition list_times {A : Type} (x : A) (k : Z) : list A :=
  repeat x (Z.to_nat k).

(** [jax.lax.scan(f, init, xs, reverse=True)]: the carry runs from the last
    element to the first, the outputs keep the order of [xs]. *)
Fixpoint scan_reverse {A X Y : Type} (f : A -> X -> A * Y) (init : A)
  (xs : list X) : A * list Y :=
  match xs with
  | [] => (init, [])
  | x :: xs' =>
      let '(acc, ys) := scan_reverse f init xs' in
      let '(acc', y) := f acc x in
      (acc', y :: ys)
  end.

(** ** Arrays *)

Section Arrays.
Context {F : Type} {Sc : Scalar F}.

(** Rank-1 arrays and their element-wise operations. *)
Definition vadd : list F -> list F -> list F := zip_with add.
Definition vsub : list F -> list F -> list F := zip_with sub.
Definition vmul : list F -> list F -> list F := zip_with mul.

(** [jnp.zeros(k)] of rank 1. *)
Definition zeros1 (k : nat) : list F := repeat zero k.

(** A rank-2 array of shape [(length rows, shape1)]. *)
Record ndarray : Type := NDArray {
  shape1 : nat;
  rows : list (list F)
}.

Definition shape0 (a : ndarray) : nat := length (rows a).

(** Every row has the static width. *)
Definition wf (a : ndarray) : Prop :=
  Forall (fun row => length row = shape1 a) (rows a).

Definition has_shape (m n : nat) (a : ndarray) : Prop :=
  shape0 a = m /\ shape1 a = n /\ wf a.

Definition has_shapeb (m n : nat) (a : ndarray) : bool :=
  (shape0 a =? m) && (shape1 a =? n)
  && forallb (fun row => length row =? n) (rows a).

(** [a[i, j]] *)
Definition get (a : ndarray) (i j : nat) : F :=
  nth j (nth i (rows a) []) zero.

(** [jnp.swapaxes(a, 0, 1)] *)
Definition swapaxes (a : ndarray) : ndarray :=
  NDArray (shape0 a)
    (map (fun j => map (fun row => nth j row zero) (rows a))
         (seq 0 (shape1 a))).

(** Element-wise operations on arrays of one shape (the shapes the
    documented inputs give; on other shapes JAX broadcasts or raises;
    broadcasting is modelled for the mixing parameter, below). *)
Definition arr_zip (f : F -> F -> F) (a b : ndarray) : ndarray :=
  NDArray (shape1 a) (zip_with (zip_with f) (rows a) (rows b)).

Definition arr_map (f : F -> F) (a : ndarray) : ndarray :=
  NDArray (shape1 a) (map (map f) (rows a)).

Definition arr_add := arr_zip add.
Definition arr_sub := arr_zip sub.
Definition arr_mul := arr_zip mul.

(** [jnp.ones_like(a)] *)
Definition ones_like (a : ndarray) : ndarray := arr_map (fun _ => one) a.

(** [a[1:]] and [a[:-1]] *)
Definition drop_first (a : ndarray) : ndarray :=
  NDArray (shape1 a) (tl (rows a)).
Definition drop_last (a : ndarray) : ndarray :=
  NDArray (shape1 a) (removelast (rows a)).

(** [a[-1]]: JAX raises IndexError on an axis of size 0. *)
Definition index_last (a : ndarray) : result (list F) :=
  match rows a with
  | [] => Err IndexError
  | _ :: _ => Ok (last (rows a) [])
  end.

(** A mixing parameter: a Python scalar, or a rank-2 array that broadcasts
    to the shape of the array it is multiplied with (each dimension is
    that of the other array or 1). *)
Inductive scalar_or_array : Type :=
| LScalar (x : F)
| LArray (a : ndarray).

(** The element of [b] that broadcasting puts at position [(i, j)]. *)
Definition broadcast_get (b : ndarray) (i j : nat) : F :=
  get b (if shape0 b =? 1 then 0 else i) (if shape1 b =? 1 then 0 else j).

(** [jnp.broadcast_to(b, (m, n))] *)
Definition broadcast_to (m n : nat) (b : ndarray) : ndarray :=
  NDArray n
    (map (fun i => map (fun j => broadcast_get b i j) (seq 0 n)) (seq 0 m)).

(** [a * lambda_] *)
Definition mul_broadcast (a : ndarray) (l : scalar_or_array) : ndarray :=
  match l with
  | LScalar x => arr_map (fun y => y .* x) a
  | LArray b => arr_mul a (broadcast_to (shape0 a) (shape1 a) b)
  end.

(** The element of a mixing parameter that meets [a[i, j]]. *)
Definition lambda_at (l : scalar_or_array) (i j : nat) : F :=
  match l with
  | LScalar x => x
  | LArray b => broadcast_get b i j
  end.

(** The mixing parameter broadcasts to shape [(m, n)]. *)
Definition lambda_shape (m n : nat) (l : scalar_or_array) : Prop :=
  match l with
  | LScalar _ => True
  | LArray b =>
      (shape0 b = m \/ shape0 b = 1) /\ (shape1 b = n \/ shape1 b = 1) /\ wf b
  end.

Definition lambda_shapeb (m n : nat) (l : scalar_or_array) : bool :=
  match l with
  | LScalar _ => true
  | LArray b =>
      ((shape0 b =? m) || (shape0 b =? 1))
      && ((shape1 b =? n) || (shape1 b =? 1))
      && forallb (fun row => length row =? shape1 b) (rows b)
  end.

(** [jax.lax.stop_gradient]: no numeric effect. *)
Definition stop_gradient (a : ndarray) : ndarray := a.

(** [jax.lax.select] with a Python boolean as predicate. *)
Definition lax_select (pred : bool) (on_true on_false : ndarray) : ndarray :=
  if pred then on_true else on_false.

(** An array of statically unknown rank: [jnp.array] of a Python list of
    rank-1 arrays has rank 2, but [jnp.array([])] has shape [(0,)]. *)
Inductive anyarray : Type :=
| Rank1 (xs : list F)
| Rank2 (a : ndarray).

Definition jnp_array (l : list (list F)) : anyarray :=
  match l with
  | [] => Rank1 []
  | x :: _ => Rank2 (NDArray (length x) l)
  end.

(** [jnp.concatenate([a, b], axis=0)] for [a] of rank 2: the operands must
    have one rank and agree on the other dimension. *)
Definition concatenate (a : ndarray) (b : anyarray) : result ndarray :=
  match b with
  | Rank1 _ => Err TypeError
  | Rank2 b' =>
      if shape1 a =? shape1 b'
      then Ok (NDArray (shape1 a) (rows a ++ rows b'))
      else Err TypeError
  end.

(** [jnp.zeros((m, k))] and [jnp.ones((m, k))]: a negative dimension is
    refused. *)
Definition full2 (x : F) (m : Z) (k : nat) : result ndarray :=
  if (m <? 0)%Z then Err TypeError
  else Ok (NDArray k (repeat (repeat x k) (Z.to_nat m))).

Definition zeros2 := full2 zero.
Definition ones2 := full2 one.
End Arrays.

Arguments ndarray F : clear implicits.
Arguments scalar_or_array F : clear implicits.
Arguments anyarray F : clear implicits.

(** ** [stoix/utils/multistep.py] *)

Section Multistep.
Context {F : Type} {Sc : Scalar F}.

(** [_body] of [batch_truncated_generalized_advantage_estimation]:
    [acc = deltas + discounts * lambda_ * acc; return acc, acc] *)
Definition gae_body (acc : list F) (xs : list F * list F * list F)
  : list F * list F :=
  let '(deltas, discounts, lambda_) := xs in
  let acc := vadd deltas (vmul (vmul discounts lambda_) acc) in
  (acc, acc).

Definition batch_truncated_generalized_advantage_estimation
  (r_t discount_t : ndarray F) (lambda_ : scalar_or_array F)
  (values : ndarray F) (stop_target_gradients time_major : bool)
  : ndarray F * ndarray F :=
  (* Swap axes to make time axis the first dimension *)
  let batch_size := if time_major then shape1 r_t else shape0 r_t in
  let r_t := if time_major then r_t else swapaxes r_t in
  let discount_t := if time_major then discount_t else swapaxes discount_t in
  let values := if time_major then values else swapaxes values in
  (* If scalar, make into vector. *)
  let lambda_ := mul_broadcast (ones_like discount_t) lambda_ in
  let delta_t :=
    arr_sub (arr_add r_t (arr_mul discount_t (drop_first values)))
            (drop_last values) in
  (* Iterate backwards to calculate advantages. *)
  let '(_, advantage_rows) :=
    scan_reverse gae_body (zeros1 batch_size)
      (combine (combine (rows delta_t) (rows discount_t)) (rows lambda_)) in
  let advantage_t := NDArray batch_size advantage_rows in
  let target_values := arr_add (drop_last values) advantage_t in
  (* Swap axes back to original shape *)
  let advantage_t := if time_major then advantage_t else swapaxes advantage_t in
  let target_values :=
    if time_major then target_values else swapaxes target_values in
  if stop_target_gradients
  then (stop_gradient advantage_t, stop_gradient target_values)
  else (advantage_t, target_values).

(** One pass of the loop of [batch_n_step_bootstrapped_returns]:
    [targets = r_ + discount_ * ((1.0 - lambda_) * v_ + lambda_ * targets)]
    on the slices [i : i + seq_len]. *)
Definition n_step_pass (seq_len : nat) (r_t discount_t lambda_t v_t : ndarray F)
  (targets : ndarray F) (i : nat) : ndarray F :=
  let window a := NDArray (shape1 a) (slice i (i + seq_len) (rows a)) in
  let r_ := window r_t in
  let discount_ := window discount_t in
  let lambda_ := window lambda_t in
  let v_ := window v_t in
  arr_add r_
    (arr_mul discount_
       (arr_add (arr_mul (arr_map (fun l => one .- l) lambda_) v_)
                (arr_mul lambda_ targets))).

Definition batch_n_step_bootstrapped_returns
  (r_t discount_t v_t : ndarray F) (n : Z) (lambda_t : scalar_or_array F)
  (stop_target_gradients : bool) : result (ndarray F) :=
  (* swap axes to make time axis the first dimension *)
  let r_t := swapaxes r_t in
  let discount_t := swapaxes discount_t in
  let v_t := swapaxes v_t in
  let seq_len := shape0 r_t in
  let batch_size := shape1 r_t in
  (* Maybe change scalar lambda to an array. *)
  let lambda_t := mul_broadcast (ones_like discount_t) lambda_t in
  (* Shift bootstrap values by n and pad end of sequence with last value. *)
  let pad_size := Z.min (n - 1) (Z.of_nat seq_len) in
  v_last <- index_last v_t ;;
  targets <- concatenate
               (NDArray (shape1 v_t) (slice_from (n - 1) (rows v_t)))
               (jnp_array (list_times v_last pad_size)) ;;
  (* Pad sequences. Shape is now (T + n - 1,). *)
  r_pad <- zeros2 (n - 1) batch_size ;;
  r_t <- concatenate r_t (Rank2 r_pad) ;;
  discount_pad <- ones2 (n - 1) batch_size ;;
  discount_t <- concatenate discount_t (Rank2 discount_pad) ;;
  lambda_pad <- ones2 (n - 1) batch_size ;;
  lambda_t <- concatenate lambda_t (Rank2 lambda_pad) ;;
  v_last' <- index_last v_t ;;
  v_t <- concatenate v_t (jnp_array (list_times v_last' (n - 1))) ;;
  (* Work backwards to compute n-step returns. *)
  let targets :=
    fold_left (n_step_pass seq_len r_t discount_t lambda_t v_t)
              (rev (seq 0 (Z.to_nat n))) targets in
  let targets := swapaxes targets in
  Ok (lax_select stop_target_gradients (stop_gradient targets) targets).

(** [_body] of [batch_general_off_policy_returns_from_q_and_v]:
    [acc = reward + discount * (v - c * q + c * acc); return acc, acc] *)
Definition off_policy_body (acc : list F)
  (xs : list F * list F * list F * list F * list F) : list F * list F :=
  let '(reward, discount, c, v, q) := xs in
  let acc :=
    vadd reward (vmul discount (vadd (vsub v (vmul c q)) (vmul c acc))) in
  (acc, acc).

Definition batch_general_off_policy_returns_from_q_and_v
  (q_t v_t r_t discount_t c_t : ndarray F) (stop_target_gradients : bool)
  : result (ndarray F) :=
  let q_t := swapaxes q_t in
  let v_t := swapaxes v_t in
  let r_t := swapaxes r_t in
  let discount_t := swapaxes discount_t in
  let c_t := swapaxes c_t in
  (* G_K-1. *)
  r_last <- index_last r_t ;;
  discount_last <- index_last discount_t ;;
  v_last <- index_last v_t ;;
  let g := vadd r_last (vmul discount_last v_last) in
  let '(_, returns) :=
    scan_reverse off_policy_body g
      (combine
         (combine
            (combine
               (combine (removelast (rows r_t)) (removelast (rows discount_t)))
               (rows c_t))
            (removelast (rows v_t)))
         (rows q_t)) in
  let returns := NDArray (length g) (returns ++ [g]) in
  let returns := swapaxes returns in
  Ok (lax_select stop_target_gradients (stop_gradient returns) returns).

Context {T : Transcendental F}.

Definition batch_retrace_continuous
  (q_tm1 q_t v_t r_t discount_t log_rhos : ndarray F)
  (lambda_ : scalar_or_array F) (stop_target_gradients : bool)
  : result (ndarray F) :=
  let c_t :=
    mul_broadcast (arr_map (fun x => minimum one (exp x)) log_rhos) lambda_ in
  (* The generalized returns are independent of Q-values and cs at the
     final state. *)
  target_tm1 <-
    batch_general_off_policy_returns_from_q_and_v q_t v_t r_t discount_t c_t
      false ;;
  let target_tm1 :=
    lax_select stop_target_gradients (stop_gradient target_tm1) target_tm1 in
  Ok (arr_sub target_tm1 q_tm1).
End Multistep.

(** ** [stoix/utils/total_timestep_checker.py] *)

Module TotalTimesteps.

(** [config.arch]: the fields the function reads or writes.  A field that
    the configuration leaves unset is [None]. *)
Record arch_config : Type := ArchConfig {
  total_timesteps : option Z;
  num_updates : option Z;
  num_envs : Z
}.

(** [config.system] *)
Record system_config : Type := SystemConfig {
  rollout_length : Z;
  update_batch_size : Z
}.

Record config : Type := Config {
  arch : arch_config;
  system : system_config
}.

(** What the function prints: the new number of updates. *)
Inductive message : Type :=
| ChangingNumUpdates (updates : Z).

(** [a // b] on Python integers. *)
Definition floordiv (a b : Z) : result Z :=
  if (b =? 0)%Z then Err ZeroDivisionError else Ok (a / b)%Z.

(** [check_total_timesteps], with [n_devices = len(jax.devices())] as a
    parameter; the result is the configuration (the source updates the
    object it was given and returns it) and the printed messages. *)
Definition check_total_timesteps (n_devices : Z) (c : config)
  : result (config * list message) :=
  match total_timesteps (arch c) with
  | None =>
      match num_updates (arch c) with
      | None => Err TypeError
      | Some updates =>
          let total :=
            (n_devices * updates * rollout_length (system c)
             * update_batch_size (system c) * num_envs (arch c))%Z in
          Ok (Config (ArchConfig (Some total) (num_updates (arch c))
                        (num_envs (arch c)))
                     (system c), [])
      end
  | Some total =>
      q1 <- floordiv total (rollout_length (system c)) ;;
      q2 <- floordiv q1 (update_batch_size (system c)) ;;
      q3 <- floordiv q2 (num_envs (arch c)) ;;
      q4 <- floordiv q3 n_devices ;;
      Ok (Config (ArchConfig (total_timesteps (arch c)) (Some q4)
                    (num_envs (arch c)))
                 (system c), [ChangingNumUpdates q4])
  end.

End TotalTimesteps.

(** ** Vocabulary of the statements *)

#[export] Instance Z_ExactArith : ExactArith Z :=
  {| opp := Z.opp; exact_ring := InitialRing.Zth |}.

#[export] Instance Qc_ExactArith : ExactArith Qc :=
  {| opp := Qcopp; exact_ring := Qcrt |}.

#[export] Instance R_ExactArith : ExactArith R :=
  {| opp := Ropp; exact_ring := RTheory |}.

Section Vocabulary.
Context {F : Type} {Sc : Scalar F}.

(** The element of batch entry [b] at time index [t], in either layout. *)
Definition at_time (time_major : bool) (a : ndarray F) (b t : nat) : F :=
  if time_major then get a t b else get a b t.

(** A batch of [B] sequences of length [K], in either layout. *)
Definition layout_shape (time_major : bool) (B K : nat) (a : ndarray F)
  : Prop :=
  if time_major then has_shape K B a else has_shape B K a.

(** The n-step target as the specification words it, for one batch entry:
    the one-step target [G = r + d * ((1 - l) * v + l * G')] unrolled [k]
    times from index [i], the base case being the bootstrap value that
    precedes the index reached.  The arguments are the sequences as
    functions of the index. *)
Fixpoint n_step_unrolled (r d l v : nat -> F) (k i : nat) : F :=
  match k with
  | 0 => v (i - 1)
  | S k' =>
      r i .+ d i .* ((one .- l i) .* v i .+ l i .* n_step_unrolled r d l v k' (1 + i))
  end.

(** A sequence of length [T] continued by a constant. *)
Definition padded (T : nat) (x : nat -> F) (pad : F) (i : nat) : F :=
  if i <? T then x i else pad.
End Vocabulary.

Section SumVocabulary.
Context {F : Type} {Sc : Scalar F}.

(** The product [w t * w (t + 1) * ... * w (t + len - 1)]. *)
Fixpoint weight_product (w : nat -> F) (t len : nat) : F :=
  match len with
  | 0 => one
  | S len' => w t .* weight_product w (S t) len'
  end.

(** The sum of [weight_product w t i * delta (t + i)] over [i < n]. *)
Fixpoint weighted_sum (w delta : nat -> F) (t n : nat) : F :=
  match n with
  | 0 => zero
  | S n' => weighted_sum w delta t n' .+ weight_product w t n' .* delta (t + n')
  end.
End SumVocabulary.

(** Equations between concrete rational arrays, element by element. *)
Ltac qc_array_eq :=
  repeat lazymatch goal with
    | |- Ok _ = Ok _ => f_equal
    | |- NDArray _ _ = NDArray _ _ => f_equal
    | |- _ :: _ = _ :: _ => f_equal
    | |- @eq Qc _ _ => apply Qc_is_canon; vm_compute; reflexivity
    end.

(** * Properties *)

(** ** Lists *)

Section ListFacts.
Context {A B C : Type}.

Lemma zip_with_length (f : A -> B -> C) xs ys :
  length (zip_with f xs ys) = Nat.min (length xs) (length ys).
Proof. unfold zip_with. now rewrite length_map, length_combine. Qed.

Lemma zip_with_nth (f : A -> B -> C) xs ys i dx dy d :
  i < length xs -> i < length ys ->
  nth i (zip_with f xs ys) d = f (nth i xs dx) (nth i ys dy).
Proof.
  revert ys i. induction xs as [|x xs IH]; intros [|y ys] [|i] Hx Hy;
    simpl in *; try lia; [reflexivity|].
  apply IH; lia.
Qed.

End ListFacts.

Lemma nth_removelast {A : Type} (l : list A) i d :
  i < length l - 1 -> nth i (removelast l) d = nth i l d.
Proof.
  revert i. induction l as [|x l IH]; intros i Hi; simpl in *; [lia|].
  destruct l as [|y l]; simpl in *; [lia|].
  destruct i as [|i]; [reflexivity|]. apply IH. simpl. lia.
Qed.

Lemma length_removelast' {A : Type} (l : list A) :
  length (removelast l) = length l - 1.
Proof.
  induction l as [|x l IH]; [reflexivity|].
  destruct l as [|y l]; [reflexivity|]. simpl in *. rewrite IH. lia.
Qed.

Lemma nth_tl {A : Type} (l : list A) i d : nth i (tl l) d = nth (S i) l d.
Proof. destruct l; simpl; [now destruct i | reflexivity]. Qed.

Lemma last_as_nth {A : Type} (l : list A) d :
  last l d = nth (length l - 1) l d.
Proof.
  induction l as [|x l IH]; [reflexivity|].
  destruct l as [|y l]; [reflexivity|].
  change (last (x :: y :: l) d) with (last (y :: l) d). rewrite IH.
  simpl. now rewrite Nat.sub_0_r.
Qed.

(** ** The reverse scan *)

Section Scan.
Context {A X : Type} (f : A -> X -> A * A) (init : A).
Hypothesis f_out : forall acc x, snd (f acc x) = fst (f acc x).

Lemma scan_reverse_cons x xs :
  scan_reverse f init (x :: xs) =
  (fst (f (fst (scan_reverse f init xs)) x),
   fst (f (fst (scan_reverse f init xs)) x) :: snd (scan_reverse f init xs)).
Proof.
  simpl. destruct (scan_reverse f init xs) as [acc ys]. simpl.
  specialize (f_out acc x). destruct (f acc x) as [a y]. simpl in *.
  now subst.
Qed.

Lemma scan_reverse_length xs :
  length (snd (scan_reverse f init xs)) = length xs.
Proof.
  induction xs as [|x xs IH]; [reflexivity|].
  rewrite scan_reverse_cons. simpl. now rewrite IH.
Qed.

(** The carry that leaves the scan is its first output. *)
Lemma scan_reverse_carry xs d :
  fst (scan_reverse f init xs) =
  if 0 <? length xs then nth 0 (snd (scan_reverse f init xs)) d else init.
Proof. destruct xs as [|x xs]; [reflexivity|]. now rewrite scan_reverse_cons. Qed.

Lemma scan_reverse_nth xs t dx d :
  t < length xs ->
  nth t (snd (scan_reverse f init xs)) d =
  fst (f (if S t <? length xs
          then nth (S t) (snd (scan_reverse f init xs)) d else init)
         (nth t xs dx)).
Proof.
  revert t. induction xs as [|x xs IH]; intros t Ht; simpl in Ht; [lia|].
  rewrite scan_reverse_cons.
  destruct t as [|t].
  - cbn [nth snd length]. rewrite (scan_reverse_carry xs d).
    change (1 <? S (length xs)) with (0 <? length xs). reflexivity.
  - cbn [nth snd length]. rewrite (IH t) by lia.
    change (S (S t) <? S (length xs)) with (S t <? length xs). reflexivity.
Qed.

Lemma scan_reverse_Forall (P : A -> Prop) (Q : X -> Prop) xs :
  P init -> (forall acc x, P acc -> Q x -> P (fst (f acc x))) ->
  Forall Q xs ->
  P (fst (scan_reverse f init xs)) /\ Forall P (snd (scan_reverse f init xs)).
Proof.
  intros Hi Hstep. induction 1 as [|x xs Hx Hxs [IH1 IH2]]; [now split|].
  rewrite scan_reverse_cons. simpl. split; [|constructor]; auto.
Qed.
End Scan.

Arguments scan_reverse_length {A X f init} f_out xs.
Arguments scan_reverse_nth {A X f init} f_out xs t dx d _.
Arguments scan_reverse_Forall {A X f init} f_out P Q {xs} _ _ _.

(** ** Arrays *)

Section ArrayFacts.
Context {F : Type} {Sc : Scalar F}.
Implicit Types a b : ndarray F.

Lemma has_shape_iff m n a : has_shapeb m n a = true <-> has_shape m n a.
Proof.
  unfold has_shapeb, has_shape, wf.
  rewrite !andb_true_iff, !Nat.eqb_eq, forallb_forall, Forall_forall.
  split.
  - intros [[H0 H1] H2]. repeat split; auto.
    intros x Hx. rewrite H1. apply Nat.eqb_eq. auto.
  - intros (H0 & H1 & H2). repeat split; auto.
    intros x Hx. apply Nat.eqb_eq. rewrite <- H1. auto.
Qed.

Lemma has_shape_row m n a i :
  has_shape m n a -> i < m -> length (nth i (rows a) []) = n.
Proof.
  intros (H0 & H1 & H2) Hi. unfold wf in H2.
  rewrite Forall_forall in H2. rewrite <- H1. apply H2, nth_In.
  unfold shape0 in H0. lia.
Qed.

Lemma has_shape_intro m n (l : list (list F)) :
  length l = m -> Forall (fun row => length row = n) l ->
  has_shape m n (NDArray n l).
Proof. intros. repeat split; assumption. Qed.

(** Arrays of one shape with the same elements are equal. *)
Lemma ndarray_ext m n a b :
  has_shape m n a -> has_shape m n b ->
  (forall i j, i < m -> j < n -> get a i j = get b i j) -> a = b.
Proof.
  intros Ha Hb Hget.
  assert (Hrows : rows a = rows b).
  { apply (nth_ext _ _ [] []).
    - destruct Ha as (Ha & _), Hb as (Hb & _). unfold shape0 in *. lia.
    - intros i Hi.
      assert (Hi' : i < m) by (destruct Ha as (Ha & _); unfold shape0 in Ha; lia).
      apply (nth_ext _ _ zero zero).
      + now rewrite (has_shape_row Ha Hi'), (has_shape_row Hb Hi').
      + intros j Hj. rewrite (has_shape_row Ha Hi') in Hj.
        apply (Hget i j); assumption. }
  destruct a as [sa ra], b as [sb rb]. simpl in *. subst rb.
  destruct Ha as (_ & Ha & _), Hb as (_ & Hb & _). simpl in *. congruence.
Qed.

Lemma swapaxes_shape m n a :
  shape0 a = m -> shape1 a = n -> has_shape n m (swapaxes a).
Proof.
  intros H0 H1. unfold swapaxes. rewrite H0, H1. apply has_shape_intro.
  - now rewrite length_map, length_seq.
  - apply Forall_forall. intros row Hrow. apply in_map_iff in Hrow.
    destruct Hrow as (j & <- & _). now rewrite length_map.
Qed.

(** Stopping gradients does not change the numbers. *)
Lemma lax_select_stop_gradient (stop : bool) a :
  lax_select stop (stop_gradient a) a = a.
Proof. now destruct stop. Qed.

Lemma layout_shape_swap m n a :
  has_shape m n a -> has_shape n m (swapaxes a).
Proof. intros (H0 & H1 & _). now apply swapaxes_shape. Qed.

Lemma get_swapaxes a i j :
  i < shape1 a -> j < shape0 a -> get (swapaxes a) i j = get a j i.
Proof.
  intros Hi Hj. unfold get, swapaxes. cbn [rows].
  rewrite (nth_indep _ [] (map (fun row => nth 0 row zero) (rows a)))
    by now rewrite length_map, length_seq.
  rewrite (map_nth (fun j => map (fun row => nth j row zero) (rows a))).
  rewrite seq_nth by assumption. cbn [Nat.add].
  rewrite (nth_indep _ zero (nth i [] zero)) by now rewrite length_map.
  now rewrite (map_nth (fun row => nth i row zero)).
Qed.

Lemma swapaxes_involutive m n a :
  has_shape m n a -> swapaxes (swapaxes a) = a.
Proof.
  intros Ha. pose proof Ha as (H0 & H1 & _).
  apply (ndarray_ext (m := m) (n := n)); [|assumption|].
  - apply swapaxes_shape.
    + unfold swapaxes, shape0. cbn [rows]. now rewrite length_map, length_seq.
    + exact H0.
  - intros i j Hi Hj.
    assert (Hs : has_shape n m (swapaxes a)) by now apply swapaxes_shape.
    destruct Hs as (Hs0 & Hs1 & _).
    rewrite get_swapaxes by lia. apply get_swapaxes; lia.
Qed.

Lemma arr_zip_shape m n (f : F -> F -> F) a b :
  has_shape m n a -> has_shape m n b -> has_shape m n (arr_zip f a b).
Proof.
  intros Ha Hb. pose proof Ha as (Ha0 & Ha1 & Ha2).
  pose proof Hb as (Hb0 & Hb1 & Hb2).
  unfold arr_zip. rewrite Ha1. apply has_shape_intro.
  - rewrite zip_with_length. unfold shape0 in *. lia.
  - apply Forall_forall. intros row Hrow.
    destruct (In_nth _ _ [] Hrow) as (i & Hi & <-).
    rewrite zip_with_length in Hi. unfold shape0 in *.
    rewrite (zip_with_nth _ _ _ [] []) by lia.
    rewrite zip_with_length.
    rewrite (has_shape_row Ha), (has_shape_row Hb); lia.
Qed.

Lemma get_arr_zip m n (f : F -> F -> F) a b i j :
  has_shape m n a -> has_shape m n b -> i < m -> j < n ->
  get (arr_zip f a b) i j = f (get a i j) (get b i j).
Proof.
  intros Ha Hb Hi Hj. unfold get, arr_zip. cbn [rows].
  pose proof Ha as (Ha0 & _). pose proof Hb as (Hb0 & _). unfold shape0 in *.
  rewrite (zip_with_nth _ _ _ [] []) by lia.
  apply zip_with_nth.
  - rewrite (has_shape_row Ha); lia.
  - rewrite (has_shape_row Hb); lia.
Qed.

Lemma arr_map_shape m n (f : F -> F) a :
  has_shape m n a -> has_shape m n (arr_map f a).
Proof.
  intros (H0 & H1 & H2). unfold arr_map. rewrite H1. apply has_shape_intro.
  - unfold shape0 in H0. now rewrite length_map.
  - unfold wf in H2. rewrite Forall_forall in *. intros row Hrow.
    apply in_map_iff in Hrow. destruct Hrow as (x & <- & Hx).
    rewrite length_map, <- H1. auto.
Qed.

Lemma get_arr_map m n (f : F -> F) a i j :
  has_shape m n a -> i < m -> j < n ->
  get (arr_map f a) i j = f (get a i j).
Proof.
  intros Ha Hi Hj. unfold get, arr_map. cbn [rows].
  pose proof Ha as (Ha0 & _). unfold shape0 in *.
  rewrite (nth_indep _ [] (map f [])) by (rewrite length_map; lia).
  rewrite (map_nth (map f)).
  rewrite (nth_indep _ zero (f zero))
    by (rewrite length_map, (has_shape_row Ha); lia).
  apply map_nth.
Qed.

Lemma drop_first_shape m n a :
  has_shape (S m) n a -> has_shape m n (drop_first a).
Proof.
  intros (H0 & H1 & H2). unfold drop_first. rewrite H1.
  unfold shape0, wf in *. destruct (rows a) as [|x l]; [discriminate|].
  apply has_shape_intro; simpl in *; [lia|].
  inversion H2 as [|? ? _ Hl]. now rewrite H1 in Hl.
Qed.

Lemma get_drop_first a i j : get (drop_first a) i j = get a (S i) j.
Proof. unfold get, drop_first. cbn [rows]. now rewrite nth_tl. Qed.

Lemma drop_last_shape m n a :
  has_shape (S m) n a -> has_shape m n (drop_last a).
Proof.
  intros (H0 & H1 & H2). unfold drop_last. rewrite H1.
  unfold shape0, wf in *. apply has_shape_intro.
  - rewrite length_removelast'. lia.
  - rewrite Forall_forall in *. intros row Hrow. rewrite <- H1.
    apply H2. destruct (rows a) as [|x l]; [destruct Hrow|].
    assert (Hne : x :: l <> []) by discriminate.
    rewrite (app_removelast_last [] Hne). apply in_or_app. now left.
Qed.

Lemma get_drop_last m a i j :
  shape0 a = S m -> i < m -> get (drop_last a) i j = get a i j.
Proof.
  intros H0 Hi. unfold get, drop_last, shape0 in *. cbn [rows].
  rewrite nth_removelast by lia. reflexivity.
Qed.

Lemma lambda_shape_iff m n (l : scalar_or_array F) :
  lambda_shapeb m n l = true <-> lambda_shape m n l.
Proof.
  destruct l as [x|b]; simpl; [now split|]. unfold wf.
  rewrite !andb_true_iff, !orb_true_iff, !Nat.eqb_eq, forallb_forall,
    Forall_forall.
  split.
  - intros [[H0 H1] H2]. repeat split; auto.
    intros x Hx. apply Nat.eqb_eq. auto.
  - intros (H0 & H1 & H2). repeat split; auto.
    intros x Hx. apply Nat.eqb_eq. auto.
Qed.

Lemma broadcast_to_shape m n b : has_shape m n (broadcast_to m n b).
Proof.
  unfold broadcast_to. apply has_shape_intro.
  - now rewrite length_map, length_seq.
  - apply Forall_forall. intros row Hrow. apply in_map_iff in Hrow.
    destruct Hrow as (i & <- & _). now rewrite length_map, length_seq.
Qed.

Lemma get_broadcast_to m n b i j :
  i < m -> j < n -> get (broadcast_to m n b) i j = broadcast_get b i j.
Proof.
  intros Hi Hj. unfold get at 1, broadcast_to. cbn [rows].
  rewrite (nth_indep _ [] (map (fun j => broadcast_get b 0 j) (seq 0 n)))
    by now rewrite length_map, length_seq.
  rewrite (map_nth (fun i => map (fun j => broadcast_get b i j) (seq 0 n))).
  rewrite seq_nth by assumption. cbn [Nat.add].
  rewrite (nth_indep _ zero (broadcast_get b i 0))
    by now rewrite length_map, length_seq.
  rewrite (map_nth (fun j => broadcast_get b i j)).
  now rewrite seq_nth by assumption.
Qed.

Lemma mul_broadcast_shape m n a l :
  has_shape m n a -> has_shape m n (mul_broadcast a l).
Proof.
  intros Ha. destruct l as [x|b]; simpl.
  - now apply arr_map_shape.
  - pose proof Ha as (H0 & H1 & _). rewrite H0, H1.
    apply arr_zip_shape; [assumption | apply broadcast_to_shape].
Qed.

Lemma get_mul_broadcast m n a l i j :
  has_shape m n a -> i < m -> j < n ->
  get (mul_broadcast a l) i j = get a i j .* lambda_at l i j.
Proof.
  intros Ha Hi Hj. destruct l as [x|b]; simpl.
  - now rewrite (get_arr_map (m := m) (n := n)).
  - pose proof Ha as (H0 & H1 & _). rewrite H0, H1. unfold arr_mul.
    rewrite (get_arr_zip (m := m) (n := n));
      auto using broadcast_to_shape.
    now rewrite get_broadcast_to.
Qed.

Lemma ones_like_shape m n a : has_shape m n a -> has_shape m n (ones_like a).
Proof. apply arr_map_shape. Qed.

Lemma get_ones_like m n a i j :
  has_shape m n a -> i < m -> j < n -> get (ones_like a) i j = one.
Proof. intros. unfold ones_like. now rewrite (get_arr_map (m := m) (n := n)). Qed.
End ArrayFacts.

(** ** Rows zipped for a scan *)

Lemma Forall_combine {A B : Type} (P : A -> Prop) (Q : B -> Prop) l l' :
  Forall P l -> Forall Q l' ->
  Forall (fun p => P (fst p) /\ Q (snd p)) (combine l l').
Proof.
  intros Hl. revert l'. induction Hl as [|x l Hx Hl IH]; intros l' Hl'; simpl.
  - constructor.
  - destruct Hl' as [|y l' Hy Hl']; constructor; auto.
Qed.

Section VectorFacts.
Context {F : Type} {Sc : Scalar F}.

Lemma rows_Forall m n (a : ndarray F) :
  has_shape m n a -> Forall (fun row => length row = n) (rows a).
Proof. intros (_ & H1 & H2). unfold wf in H2. now rewrite H1 in H2. Qed.

Lemma rows_length m n (a : ndarray F) : has_shape m n a -> length (rows a) = m.
Proof. now intros (H0 & _). Qed.

Lemma vadd_length (x y : list F) :
  length (vadd x y) = Nat.min (length x) (length y).
Proof. apply zip_with_length. Qed.

Lemma vsub_length (x y : list F) :
  length (vsub x y) = Nat.min (length x) (length y).
Proof. apply zip_with_length. Qed.

Lemma vmul_length (x y : list F) :
  length (vmul x y) = Nat.min (length x) (length y).
Proof. apply zip_with_length. Qed.

Lemma vadd_nth (x y : list F) b :
  b < length x -> b < length y ->
  nth b (vadd x y) zero = nth b x zero .+ nth b y zero.
Proof. apply zip_with_nth. Qed.

Lemma vsub_nth (x y : list F) b :
  b < length x -> b < length y ->
  nth b (vsub x y) zero = nth b x zero .- nth b y zero.
Proof. apply zip_with_nth. Qed.

Lemma vmul_nth (x y : list F) b :
  b < length x -> b < length y ->
  nth b (vmul x y) zero = nth b x zero .* nth b y zero.
Proof. apply zip_with_nth. Qed.

Lemma zeros1_length k : length (zeros1 (F := F) k) = k.
Proof. apply repeat_length. Qed.

Lemma zeros1_nth k b : nth b (zeros1 (F := F) k) zero = zero.
Proof. apply nth_repeat. Qed.
End VectorFacts.

(** ** Generalized advantage estimation *)

Section GAEFacts.
Context {F : Type} {Sc : Scalar F}.
Implicit Types r d v : ndarray F.

Lemma gae_body_out (acc : list F) xs : snd (gae_body acc xs) = fst (gae_body acc xs).
Proof. now destruct xs as [[deltas discounts] lambda_]. Qed.

(** The function on time-major input, without its local names. *)
Lemma gae_time_major r d lam v stop :
  batch_truncated_generalized_advantage_estimation r d lam v stop true =
  let delta :=
    arr_sub (arr_add r (arr_mul d (drop_first v))) (drop_last v) in
  let adv :=
    NDArray (shape1 r)
      (snd (scan_reverse gae_body (zeros1 (shape1 r))
              (combine (combine (rows delta) (rows d))
                       (rows (mul_broadcast (ones_like d) lam))))) in
  (adv, arr_add (drop_last v) adv).
Proof.
  unfold batch_truncated_generalized_advantage_estimation. cbv zeta.
  destruct (scan_reverse _ _ _) as [acc ys]. now destruct stop.
Qed.

(** Batch-major input is swapped, processed as time-major input, and the
    results are swapped back. *)
Lemma gae_batch_major r d lam v stop :
  batch_truncated_generalized_advantage_estimation r d lam v stop false =
  let res :=
    batch_truncated_generalized_advantage_estimation
      (swapaxes r) (swapaxes d) lam (swapaxes v) stop true in
  (swapaxes (fst res), swapaxes (snd res)).
Proof.
  rewrite gae_time_major.
  unfold batch_truncated_generalized_advantage_estimation. cbv zeta.
  change (shape1 (swapaxes r)) with (shape0 r).
  destruct (scan_reverse _ _ _) as [acc ys]. now destruct stop.
Qed.

Section TimeMajor.
Variables (K B : nat) (r d v : ndarray F) (lam : scalar_or_array F).
Hypothesis Hr : has_shape K B r.
Hypothesis Hd : has_shape K B d.
Hypothesis Hv : has_shape (S K) B v.
Hypothesis Hl : lambda_shape K B lam.

Lemma gae_delta_shape :
  has_shape K B (arr_sub (arr_add r (arr_mul d (drop_first v))) (drop_last v)).
Proof.
  repeat apply arr_zip_shape; auto using drop_first_shape, drop_last_shape.
Qed.

Lemma gae_delta_get t b :
  t < K -> b < B ->
  get (arr_sub (arr_add r (arr_mul d (drop_first v))) (drop_last v)) t b =
  get r t b .+ get d t b .* get v (S t) b .- get v t b.
Proof.
  intros Ht Hb. unfold arr_sub, arr_add, arr_mul.
  pose proof (drop_first_shape Hv) as Hv1.
  pose proof (drop_last_shape Hv) as Hv0.
  rewrite (get_arr_zip (m := K) (n := B)); auto using arr_zip_shape.
  rewrite (get_arr_zip (m := K) (n := B)); auto using arr_zip_shape.
  rewrite (get_arr_zip (m := K) (n := B)); auto.
  rewrite get_drop_first.
  rewrite (get_drop_last (m := K)); [reflexivity | apply Hv | assumption].
Qed.

Lemma gae_lambda_shape : has_shape K B (mul_broadcast (ones_like d) lam).
Proof. auto using mul_broadcast_shape, ones_like_shape. Qed.

Lemma gae_lambda_get t b :
  t < K -> b < B ->
  get (mul_broadcast (ones_like d) lam) t b = one .* lambda_at lam t b.
Proof.
  intros Ht Hb.
  rewrite (get_mul_broadcast (m := K) (n := B)); auto using ones_like_shape.
  now rewrite (get_ones_like (m := K) (n := B)).
Qed.

Lemma gae_scan_input_length :
  length (combine
            (combine
               (rows (arr_sub (arr_add r (arr_mul d (drop_first v)))
                              (drop_last v)))
               (rows d))
            (rows (mul_broadcast (ones_like d) lam))) = K.
Proof.
  rewrite !length_combine, (rows_length gae_delta_shape), (rows_length Hd),
    (rows_length gae_lambda_shape). lia.
Qed.

Lemma gae_advantage_rows :
  Forall (fun row => length row = B)
    (snd (scan_reverse gae_body (zeros1 B)
            (combine
               (combine
                  (rows (arr_sub (arr_add r (arr_mul d (drop_first v)))
                                 (drop_last v)))
                  (rows d))
               (rows (mul_broadcast (ones_like d) lam))))).
Proof.
  apply (scan_reverse_Forall gae_body_out
           (fun acc => length acc = B)
           (fun x => (length (fst (fst x)) = B /\ length (snd (fst x)) = B)
                     /\ length (snd x) = B)).
  - apply zeros1_length.
  - intros acc [[deltas discounts] lambda_] Hacc [[H1 H2] H3]. simpl in *.
    unfold vadd, vmul. rewrite !zip_with_length. lia.
  - apply Forall_combine
      with (P := fun y => length (fst y) = B /\ length (snd y) = B)
           (Q := fun z => length z = B).
    + apply Forall_combine
        with (P := fun y => length y = B) (Q := fun z => length z = B).
      * exact (rows_Forall gae_delta_shape).
      * exact (rows_Forall Hd).
    + exact (rows_Forall gae_lambda_shape).
Qed.

Lemma gae_advantage_get t b :
  t < K -> b < B ->
  let adv :=
    NDArray B
      (snd (scan_reverse gae_body (zeros1 B)
              (combine
                 (combine
                    (rows (arr_sub (arr_add r (arr_mul d (drop_first v)))
                                   (drop_last v)))
                    (rows d))
                 (rows (mul_broadcast (ones_like d) lam))))) in
  get adv t b =
  (get r t b .+ get d t b .* get v (S t) b .- get v t b)
  .+ (get d t b .* (one .* lambda_at lam t b))
     .* (if S t <? K then get adv (S t) b else zero).
Proof.
  intros Ht Hb adv. subst adv. unfold get at 1. cbn [rows].
  pose proof gae_advantage_rows as Hrows.
  pose proof gae_scan_input_length as Hlen.
  rewrite (scan_reverse_nth gae_body_out _ _ ([], [], [])) by (rewrite Hlen; lia).
  rewrite Hlen.
  rewrite !combine_nth
    by (rewrite ?length_combine, (rows_length gae_delta_shape),
          (rows_length Hd), ?(rows_length gae_lambda_shape); lia).
  cbn [gae_body fst]. unfold vadd, vmul.
  assert (Hcarry :
    length (if S t <? K
            then nth (S t)
                   (snd (scan_reverse gae_body (zeros1 B)
                      (combine
                         (combine
                            (rows (arr_sub (arr_add r (arr_mul d (drop_first v)))
                                           (drop_last v)))
                            (rows d))
                         (rows (mul_broadcast (ones_like d) lam))))) []
            else zeros1 B) = B).
  { destruct (S t <? K) eqn:E.
    - apply Nat.ltb_lt in E. rewrite Forall_forall in Hrows.
      apply Hrows, nth_In. rewrite scan_reverse_length by apply gae_body_out.
      rewrite Hlen. assumption.
    - apply zeros1_length. }
  pose proof (has_shape_row gae_delta_shape Ht) as Hdl.
  pose proof (has_shape_row Hd Ht) as Hdd.
  pose proof (has_shape_row gae_lambda_shape Ht) as Hll.
  rewrite (zip_with_nth _ _ _ zero zero)
    by (rewrite ?zip_with_length; lia).
  rewrite (zip_with_nth _ _ _ zero zero)
    by (rewrite ?zip_with_length; lia).
  rewrite (zip_with_nth _ _ _ zero zero)
    by (rewrite ?zip_with_length; lia).
  change (nth b (nth t (rows ?a) []) zero) with (get a t b).
  rewrite gae_delta_get, gae_lambda_get by assumption.
  f_equal. f_equal.
  destruct (S t <? K); [reflexivity | apply zeros1_nth].
Qed.
End TimeMajor.

(** What the function computes on time-major input of the documented
    shapes. *)
Lemma gae_time_major_spec K B r d v lam stop :
  has_shape K B r -> has_shape K B d -> has_shape (S K) B v ->
  lambda_shape K B lam ->
  let res := batch_truncated_generalized_advantage_estimation
               r d lam v stop true in
  has_shape K B (fst res) /\ has_shape K B (snd res) /\
  forall t b, t < K -> b < B ->
    get (fst res) t b =
      (get r t b .+ get d t b .* get v (S t) b .- get v t b)
      .+ (get d t b .* (one .* lambda_at lam t b))
         .* (if S t <? K then get (fst res) (S t) b else zero)
    /\ get (snd res) t b = get v t b .+ get (fst res) t b.
Proof.
  intros Hr Hd Hv Hl. rewrite gae_time_major. cbv zeta. cbn [fst snd].
  pose proof Hr as (_ & Hr1 & _). rewrite Hr1.
  assert (Hadv : has_shape K B
    (NDArray B
       (snd (scan_reverse gae_body (zeros1 B)
          (combine
             (combine
                (rows (arr_sub (arr_add r (arr_mul d (drop_first v)))
                               (drop_last v)))
                (rows d))
             (rows (mul_broadcast (ones_like d) lam))))))).
  { apply has_shape_intro.
    - rewrite scan_reverse_length by apply gae_body_out.
      now apply (gae_scan_input_length (K := K) (B := B)).
    - now apply (gae_advantage_rows (K := K)). }
  pose proof (drop_last_shape Hv) as Hv0.
  split; [assumption|]. split; [now apply arr_zip_shape|].
  intros t b Ht Hb. split.
  - now apply gae_advantage_get.
  - unfold arr_add. rewrite (get_arr_zip (m := K) (n := B)) by assumption.
    rewrite (get_drop_last (m := K)); [reflexivity | apply Hv | assumption].
Qed.
End GAEFacts.

(** ** Generalized off-policy returns *)

Section OffPolicyFacts.
Context {F : Type} {Sc : Scalar F}.

Lemma off_policy_body_out (acc : list F) xs :
  snd (off_policy_body acc xs) = fst (off_policy_body acc xs).
Proof. now destruct xs as [[[[reward discount] c] v] q]. Qed.

Lemma index_last_ok m n (a : ndarray F) :
  has_shape (S m) n a -> index_last a = Ok (nth m (rows a) []).
Proof.
  intros (H0 & _). unfold index_last, shape0 in *.
  destruct (rows a) as [|x l] eqn:E; [discriminate|].
  rewrite last_as_nth, H0. now replace (S m - 1) with m by lia.
Qed.

(** The time-major computation: the terminal estimate, the rows of the
    scan, and the concatenation of both. *)
Section TimeMajor.
Variables (K B : nat) (q v r d c : ndarray F).
Hypothesis Hq : has_shape K B q.
Hypothesis Hv : has_shape (S K) B v.
Hypothesis Hr : has_shape (S K) B r.
Hypothesis Hd : has_shape (S K) B d.
Hypothesis Hc : has_shape K B c.

#[local] Abbreviation g :=
  (vadd (nth K (rows r) []) (vmul (nth K (rows d) []) (nth K (rows v) []))).

#[local] Abbreviation xs :=
  (combine
     (combine
        (combine (combine (removelast (rows r)) (removelast (rows d)))
                 (rows c))
        (removelast (rows v)))
     (rows q)).

#[local] Abbreviation returns := (snd (scan_reverse off_policy_body g xs)).

Lemma off_policy_terminal_length : length g = B.
Proof.
  unfold vadd, vmul. rewrite !zip_with_length.
  rewrite (has_shape_row Hr), (has_shape_row Hd), (has_shape_row Hv); lia.
Qed.

Lemma off_policy_terminal_nth b :
  b < B -> nth b g zero = get r K b .+ get d K b .* get v K b.
Proof.
  intros Hb. unfold vadd, vmul, get.
  rewrite (zip_with_nth _ _ _ zero zero);
    rewrite ?zip_with_length, ?(has_shape_row Hr), ?(has_shape_row Hd),
      ?(has_shape_row Hv); try lia.
  rewrite (zip_with_nth _ _ _ zero zero);
    rewrite ?(has_shape_row Hd), ?(has_shape_row Hv); try lia.
  reflexivity.
Qed.

Lemma off_policy_scan_input_length : length xs = K.
Proof.
  rewrite !length_combine, !length_removelast'.
  rewrite (rows_length Hr), (rows_length Hd), (rows_length Hv),
    (rows_length Hc), (rows_length Hq). lia.
Qed.

Lemma off_policy_returns_length : length returns = K.
Proof.
  rewrite (scan_reverse_length off_policy_body_out).
  apply off_policy_scan_input_length.
Qed.

Lemma off_policy_returns_rows :
  Forall (fun row => length row = B) returns.
Proof.
  apply (scan_reverse_Forall off_policy_body_out
           (fun acc => length acc = B)
           (fun x => (((length (fst (fst (fst (fst x)))) = B
                        /\ length (snd (fst (fst (fst x)))) = B)
                       /\ length (snd (fst (fst x))) = B)
                      /\ length (snd (fst x)) = B)
                     /\ length (snd x) = B)).
  - apply off_policy_terminal_length.
  - intros acc [[[[reward discount] c0] v0] q0] Hacc [[[[H1 H2] H3] H4] H5].
    simpl in *. unfold vadd, vsub, vmul. rewrite !zip_with_length. lia.
  - pose proof (rows_Forall (drop_last_shape Hr)) as Hr'.
    pose proof (rows_Forall (drop_last_shape Hd)) as Hd'.
    pose proof (rows_Forall (drop_last_shape Hv)) as Hv'.
    cbn [drop_last rows] in Hr', Hd', Hv'.
    apply Forall_combine
      with (P := fun y => ((length (fst (fst (fst y))) = B
                            /\ length (snd (fst (fst y))) = B)
                           /\ length (snd (fst y)) = B)
                          /\ length (snd y) = B)
           (Q := fun z => length z = B);
      [|exact (rows_Forall Hq)].
    apply Forall_combine
      with (P := fun y => (length (fst (fst y)) = B
                           /\ length (snd (fst y)) = B)
                          /\ length (snd y) = B)
           (Q := fun z => length z = B);
      [|exact Hv'].
    apply Forall_combine
      with (P := fun y => length (fst y) = B /\ length (snd y) = B)
           (Q := fun z => length z = B);
      [|exact (rows_Forall Hc)].
    now apply Forall_combine
      with (P := fun y => length y = B) (Q := fun z => length z = B).
Qed.

Lemma off_policy_concat_shape :
  has_shape (S K) B (NDArray B (returns ++ [g])).
Proof.
  apply has_shape_intro.
  - rewrite length_app, off_policy_returns_length. simpl. lia.
  - apply Forall_app. split; [apply off_policy_returns_rows|].
    constructor; [apply off_policy_terminal_length | constructor].
Qed.

Lemma off_policy_concat_terminal b :
  b < B ->
  get (NDArray B (returns ++ [g])) K b =
  get r K b .+ get d K b .* get v K b.
Proof.
  intros Hb. unfold get. cbn [rows].
  rewrite app_nth2 by (rewrite off_policy_returns_length; lia).
  rewrite off_policy_returns_length, Nat.sub_diag. cbn [nth].
  now apply off_policy_terminal_nth.
Qed.

Lemma off_policy_concat_step t b :
  t < K -> b < B ->
  get (NDArray B (returns ++ [g])) t b =
  get r t b
  .+ get d t b
     .* (get v t b .- get c t b .* get q t b
         .+ get c t b .* get (NDArray B (returns ++ [g])) (S t) b).
Proof.
  intros Ht Hb. unfold get. cbn [rows].
  pose proof off_policy_returns_length as Hlen.
  pose proof off_policy_scan_input_length as Hxs.
  rewrite app_nth1 by lia.
  assert (Hnext : nth (S t) (returns ++ [g]) [] =
                  if S t <? K then nth (S t) returns [] else g).
  { destruct (S t <? K) eqn:E.
    - apply Nat.ltb_lt in E. apply app_nth1. lia.
    - apply Nat.ltb_ge in E. rewrite app_nth2 by lia.
      replace (S t - length returns) with 0 by lia. reflexivity. }
  rewrite Hnext.
  assert (Hcarry : length (if S t <? K then nth (S t) returns [] else g) = B).
  { destruct (S t <? K) eqn:E.
    - apply Nat.ltb_lt in E. pose proof off_policy_returns_rows as Hrows.
      rewrite Forall_forall in Hrows. apply Hrows, nth_In. lia.
    - apply off_policy_terminal_length. }
  rewrite (scan_reverse_nth off_policy_body_out _ _ ([], [], [], [], []))
    by lia.
  rewrite Hxs.
  rewrite !combine_nth
    by (rewrite ?length_combine, ?length_removelast', (rows_length Hr),
          ?(rows_length Hd), ?(rows_length Hv), ?(rows_length Hc),
          ?(rows_length Hq); lia).
  cbn [off_policy_body fst].
  rewrite !nth_removelast
    by (rewrite ?(rows_length Hr), ?(rows_length Hd), ?(rows_length Hv); lia).
  assert (Ht' : t < S K) by lia.
  pose proof (has_shape_row Hr Ht') as Lr.
  pose proof (has_shape_row Hd Ht') as Ld.
  pose proof (has_shape_row Hv Ht') as Lv.
  pose proof (has_shape_row Hc Ht) as Lc.
  pose proof (has_shape_row Hq Ht) as Lq.
  rewrite vadd_nth
    by (repeat first [rewrite vadd_length | rewrite vsub_length
                       | rewrite vmul_length]; lia).
  rewrite vmul_nth
    by (repeat first [rewrite vadd_length | rewrite vsub_length
                       | rewrite vmul_length]; lia).
  rewrite vadd_nth
    by (repeat first [rewrite vadd_length | rewrite vsub_length
                       | rewrite vmul_length]; lia).
  rewrite vsub_nth
    by (repeat first [rewrite vadd_length | rewrite vsub_length
                       | rewrite vmul_length]; lia).
  rewrite !vmul_nth by lia.
  reflexivity.
Qed.
End TimeMajor.
End OffPolicyFacts.

Section OffPolicySpec.
Context {F : Type} {Sc : Scalar F}.

(** What the function computes on batch-major input of the documented
    shapes: [q] and [c] over [K] steps, [v], [r] and [d] over [K + 1]. *)
Lemma off_policy_spec stop B K (q v r d c : ndarray F) :
  has_shape B K q -> has_shape B (S K) v -> has_shape B (S K) r ->
  has_shape B (S K) d -> has_shape B K c ->
  exists g,
    batch_general_off_policy_returns_from_q_and_v q v r d c stop = Ok g /\
    has_shape B (S K) g /\
    forall b, b < B ->
      get g b K = get r b K .+ get d b K .* get v b K /\
      forall t, t < K ->
        get g b t =
        get r b t
        .+ get d b t
           .* (get v b t .- get c b t .* get q b t
               .+ get c b t .* get g b (S t)).
Proof.
  intros Hq Hv Hr Hd Hc.
  pose proof (layout_shape_swap Hq) as Hq'.
  pose proof (layout_shape_swap Hv) as Hv'.
  pose proof (layout_shape_swap Hr) as Hr'.
  pose proof (layout_shape_swap Hd) as Hd'.
  pose proof (layout_shape_swap Hc) as Hc'.
  pose proof (off_policy_concat_shape Hq' Hv' Hr' Hd' Hc') as Hshape.
  pose proof (off_policy_concat_terminal Hq' Hv' Hr' Hd' Hc') as Hterm.
  pose proof (off_policy_concat_step Hq' Hv' Hr' Hd' Hc') as Hstep.
  pose proof (off_policy_terminal_length Hv' Hr' Hd') as Hg.
  cbv zeta in Hshape, Hterm, Hstep, Hg.
  unfold batch_general_off_policy_returns_from_q_and_v.
  rewrite (index_last_ok Hr'), (index_last_ok Hd'), (index_last_ok Hv').
  cbn [bind]. rewrite Hg.
  destruct (scan_reverse _ _ _) as [acc ys] eqn:E in |- *.
  assert (Hys : ys = snd (scan_reverse off_policy_body
    (vadd (nth K (rows (swapaxes r)) [])
       (vmul (nth K (rows (swapaxes d)) []) (nth K (rows (swapaxes v)) [])))
    (combine
       (combine
          (combine
             (combine (removelast (rows (swapaxes r)))
                      (removelast (rows (swapaxes d))))
             (rows (swapaxes c)))
          (removelast (rows (swapaxes v))))
       (rows (swapaxes q))))) by now rewrite E.
  subst ys. clear E.
  rewrite lax_select_stop_gradient.
  eexists. split; [reflexivity|].
  split; [now apply layout_shape_swap|].
  pose proof Hshape as (Hs0 & Hs1 & _).
  pose proof Hq as (Hq0 & Hq1 & _). pose proof Hv as (Hv0 & Hv1 & _).
  pose proof Hr as (Hr0 & Hr1 & _). pose proof Hd as (Hd0 & Hd1 & _).
  pose proof Hc as (Hc0 & Hc1 & _).
  intros b Hb. split.
  - rewrite get_swapaxes by lia. rewrite Hterm by assumption.
    now rewrite !get_swapaxes by lia.
  - intros t Ht. rewrite !(get_swapaxes (NDArray _ _)) by lia.
    rewrite Hstep by assumption.
    now rewrite !get_swapaxes by lia.
Qed.
End OffPolicySpec.

(** ** N-step bootstrapped returns *)

Section NStepFacts.
Context {F : Type} {Sc : Scalar F}.

(** The window [a[i : i + T]] of a padded array. *)
Lemma window_shape N T B (a : ndarray F) i :
  has_shape N B a -> i + T <= N ->
  has_shape T B (NDArray (shape1 a) (slice i (i + T) (rows a))).
Proof.
  intros Ha Hi. pose proof Ha as (H0 & H1 & H2). unfold shape0 in H0.
  rewrite H1. apply has_shape_intro.
  - unfold slice. rewrite length_firstn, length_skipn. lia.
  - pose proof (rows_Forall Ha) as Hrows. rewrite Forall_forall in *.
    intros row Hrow. apply Hrows. unfold slice in Hrow.
    rewrite <- (firstn_skipn i (rows a)). apply in_or_app. right.
    rewrite <- (firstn_skipn (i + T - i) (skipn i (rows a))).
    apply in_or_app. now left.
Qed.

Lemma get_window T (a : ndarray F) i t b :
  t < T ->
  get (NDArray (shape1 a) (slice i (i + T) (rows a))) t b = get a (i + t) b.
Proof.
  intros Ht. unfold get, slice. cbn [rows].
  rewrite nth_firstn.
  replace (t <? i + T - i) with true by (symmetry; apply Nat.ltb_lt; lia).
  now rewrite nth_skipn.
Qed.

(** One pass of the loop, element by element. *)
Lemma n_step_pass_shape N T B (r d l v targets : ndarray F) i :
  has_shape N B r -> has_shape N B d -> has_shape N B l -> has_shape N B v ->
  has_shape T B targets -> i + T <= N ->
  has_shape T B (n_step_pass T r d l v targets i).
Proof.
  intros Hr Hd Hl Hv Ht Hi. unfold n_step_pass, arr_add, arr_mul.
  repeat first [ apply arr_zip_shape | apply arr_map_shape
               | eapply window_shape; eassumption | assumption ].
Qed.

Lemma n_step_pass_get N T B (r d l v targets : ndarray F) i t b :
  has_shape N B r -> has_shape N B d -> has_shape N B l -> has_shape N B v ->
  has_shape T B targets -> i + T <= N -> t < T -> b < B ->
  get (n_step_pass T r d l v targets i) t b =
  get r (i + t) b
  .+ get d (i + t) b
     .* ((one .- get l (i + t) b) .* get v (i + t) b
         .+ get l (i + t) b .* get targets t b).
Proof.
  intros Hr Hd Hl Hv Htg Hi Ht Hb. unfold n_step_pass, arr_add, arr_mul.
  pose proof (window_shape T i Hr Hi) as Wr.
  pose proof (window_shape T i Hd Hi) as Wd.
  pose proof (window_shape T i Hl Hi) as Wl.
  pose proof (window_shape T i Hv Hi) as Wv.
  rewrite (get_arr_zip (m := T) (n := B));
    auto using arr_zip_shape, arr_map_shape.
  rewrite (get_arr_zip (m := T) (n := B));
    auto using arr_zip_shape, arr_map_shape.
  rewrite (get_arr_zip (m := T) (n := B));
    auto using arr_zip_shape, arr_map_shape.
  rewrite (get_arr_zip (m := T) (n := B));
    auto using arr_zip_shape, arr_map_shape.
  rewrite (get_arr_zip (m := T) (n := B));
    auto using arr_zip_shape, arr_map_shape.
  rewrite (get_arr_map (m := T) (n := B)) by assumption.
  now rewrite !get_window by assumption.
Qed.

(** The unrolled target depends on the sequences only at the indices it
    reads. *)
Lemma n_step_unrolled_ext (r d l v r' d' l' v' : nat -> F) N k i :
  i + k <= N -> (k = 0 -> 1 <= i) ->
  (forall j, j < N -> r j = r' j) -> (forall j, j < N -> d j = d' j) ->
  (forall j, j < N -> l j = l' j) -> (forall j, j < N -> v j = v' j) ->
  n_step_unrolled r d l v k i = n_step_unrolled r' d' l' v' k i.
Proof.
  intros Hi H0 Hr Hd Hl Hv. revert i Hi H0.
  induction k as [|k IH]; intros i Hi H0; cbn [n_step_unrolled].
  - apply Hv. specialize (H0 eq_refl). lia.
  - rewrite Hr, Hd, Hl, Hv by lia. rewrite (IH (1 + i)) by (intros; lia).
    reflexivity.
Qed.

(** The loop [for i in reversed(range(n))]. *)
Lemma n_step_loop_fold T (r d l v targets : ndarray F) n :
  fold_left (n_step_pass T r d l v) (rev (seq 0 n)) targets =
  fold_right (fun i acc => n_step_pass T r d l v acc i) targets (seq 0 n).
Proof.
  rewrite <- (rev_involutive (seq 0 n)) at 2.
  now rewrite fold_left_rev_right.
Qed.

Lemma n_step_loop_spec N T B (r d l v targets : ndarray F) n :
  has_shape N B r -> has_shape N B d -> has_shape N B l -> has_shape N B v ->
  has_shape T B targets -> n + T <= S N -> 1 <= n ->
  (forall t b, t < T -> b < B -> get targets t b = get v (n + t - 1) b) ->
  forall k i, i + k = n ->
    let res := fold_right (fun i acc => n_step_pass T r d l v acc i)
                 targets (seq i k) in
    has_shape T B res /\
    forall t b, t < T -> b < B ->
      get res t b =
      n_step_unrolled (fun j => get r j b) (fun j => get d j b)
        (fun j => get l j b) (fun j => get v j b) k (i + t).
Proof.
  intros Hr Hd Hl Hv Htg HN Hn Hinit.
  induction k as [|k IH]; intros i Hik; cbn [seq fold_right n_step_unrolled].
  - split; [assumption|]. intros t b Ht Hb. rewrite Hinit by assumption.
    f_equal. lia.
  - destruct (IH (S i)) as (Hs & Hget); [lia|]. cbv zeta in Hs, Hget.
    split.
    + eapply n_step_pass_shape; eauto. lia.
    + intros t b Ht Hb.
      rewrite (n_step_pass_get (N := N) (T := T) (B := B)); auto; [|lia].
      rewrite Hget by assumption. reflexivity.
Qed.
End NStepFacts.

Section NStepUnfold.
Context {F : Type} {Sc : Scalar F}.

Lemma jnp_array_repeat (x : list F) k :
  1 <= k -> jnp_array (repeat x k) = Rank2 (NDArray (length x) (repeat x k)).
Proof. destruct k; [lia | reflexivity]. Qed.

Lemma concatenate_ok B (a b : ndarray F) :
  shape1 a = B -> shape1 b = B ->
  concatenate a (Rank2 b) = Ok (NDArray B (rows a ++ rows b)).
Proof.
  intros Ha Hb. unfold concatenate. rewrite Ha, Hb, Nat.eqb_refl. reflexivity.
Qed.

Lemma full2_ok (x : F) (m : Z) k :
  (0 <= m)%Z -> full2 x m k = Ok (NDArray k (repeat (repeat x k) (Z.to_nat m))).
Proof.
  intros Hm. unfold full2.
  destruct (m <? 0)%Z eqn:E; [apply Z.ltb_lt in E; lia | reflexivity].
Qed.

(** For a step count of at least two and a non-empty time axis every
    array operation of the function succeeds; what remains is the loop
    over the padded sequences. *)
Lemma n_step_unfold stop B T (r d v : ndarray F) (n : Z) lam :
  has_shape B (S T) r -> has_shape B (S T) d -> has_shape B (S T) v ->
  (2 <= n)%Z ->
  let m := Z.to_nat (n - 1) in
  let v_last := nth T (rows (swapaxes v)) [] in
  batch_n_step_bootstrapped_returns r d v n lam stop =
  Ok (swapaxes
        (fold_left
           (n_step_pass (S T)
              (NDArray B (rows (swapaxes r) ++ repeat (repeat zero B) m))
              (NDArray B (rows (swapaxes d) ++ repeat (repeat one B) m))
              (NDArray B
                 (rows (mul_broadcast (ones_like (swapaxes d)) lam)
                  ++ repeat (repeat one B) m))
              (NDArray B (rows (swapaxes v) ++ repeat v_last m)))
           (rev (seq 0 (S m)))
           (NDArray B
              (skipn m (rows (swapaxes v))
               ++ repeat v_last (Nat.min m (S T)))))).
Proof.
  intros Hr Hd Hv Hn m v_last.
  pose proof (layout_shape_swap Hr) as Hr'.
  pose proof (layout_shape_swap Hd) as Hd'.
  pose proof (layout_shape_swap Hv) as Hv'.
  pose proof Hr' as (Hr0 & Hr1 & _). pose proof Hd' as (Hd0 & Hd1 & _).
  pose proof Hv' as (Hv0 & Hv1 & _).
  assert (Hlast : length v_last = B)
    by (subst v_last; apply (has_shape_row Hv'); lia).
  assert (Hm : 1 <= m) by (subst m; lia).
  assert (Hl1 : shape1 (mul_broadcast (ones_like (swapaxes d)) lam) = B)
    by (destruct lam; exact Hd1).
  unfold batch_n_step_bootstrapped_returns.
  rewrite (index_last_ok Hv'). cbn [bind]. fold v_last.
  unfold list_times, slice_from.
  replace (n - 1 <? 0)%Z with false by (symmetry; apply Z.ltb_ge; lia).
  rewrite Hr0, Hr1.
  replace (Z.to_nat (Z.min (n - 1) (Z.of_nat (S T)))) with (Nat.min m (S T))
    by (subst m; lia).
  fold m.
  rewrite (jnp_array_repeat v_last (k := Nat.min m (S T))) by lia.
  rewrite (concatenate_ok (B := B)) by (cbn [shape1]; first [assumption | reflexivity]).
  cbn [bind rows].
  unfold zeros2, ones2. rewrite !full2_ok by lia. cbn [bind]. fold m.
  rewrite (concatenate_ok (B := B)) by (cbn [shape1]; first [assumption | reflexivity]).
  cbn [bind rows].
  rewrite (concatenate_ok (B := B)) by (cbn [shape1]; first [assumption | reflexivity]).
  cbn [bind rows].
  rewrite (concatenate_ok (B := B)) by (cbn [shape1]; first [assumption | reflexivity]).
  cbn [bind rows].
  rewrite (jnp_array_repeat v_last (k := m)) by lia.
  rewrite (concatenate_ok (B := B)) by (cbn [shape1]; first [assumption | reflexivity]).
  cbn [bind rows].
  rewrite lax_select_stop_gradient.
  replace (Z.to_nat n) with (S m) by (subst m; lia).
  reflexivity.
Qed.
End NStepUnfold.

Section NStepSpec.
Context {F : Type} {Sc : Scalar F}.

(** A time-major array continued by [m] copies of a row. *)
Lemma padded_rows_shape T B (a : ndarray F) (p : list F) m :
  has_shape T B a -> length p = B ->
  has_shape (T + m) B (NDArray B (rows a ++ repeat p m)).
Proof.
  intros Ha Hp. apply has_shape_intro.
  - now rewrite length_app, repeat_length, (rows_length Ha).
  - apply Forall_app. split; [exact (rows_Forall Ha)|].
    apply Forall_forall. intros x Hx. apply repeat_spec in Hx. now subst.
Qed.

Lemma padded_rows_get T B (a : ndarray F) (p : list F) m i b :
  has_shape T B a -> i < T + m ->
  get (NDArray B (rows a ++ repeat p m)) i b =
  padded T (fun j => get a j b) (nth b p zero) i.
Proof.
  intros Ha Hi. unfold get, padded. cbn [rows].
  pose proof (rows_length Ha) as Hlen.
  destruct (i <? T) eqn:E.
  - apply Nat.ltb_lt in E. now rewrite app_nth1 by lia.
  - apply Nat.ltb_ge in E. rewrite app_nth2 by lia.
    now rewrite nth_repeat_lt by lia.
Qed.

(** The bootstrap values shifted by [m] and padded with the last row. *)
Lemma shifted_rows_shape T B (a : ndarray F) (p : list F) m :
  has_shape T B a -> length p = B ->
  has_shape T B (NDArray B (skipn m (rows a) ++ repeat p (Nat.min m T))).
Proof.
  intros Ha Hp. apply has_shape_intro.
  - rewrite length_app, repeat_length, length_skipn, (rows_length Ha). lia.
  - apply Forall_app. split.
    + pose proof (rows_Forall Ha) as Hrows. rewrite Forall_forall in *.
      intros x Hx. apply Hrows. rewrite <- (firstn_skipn m (rows a)).
      apply in_or_app. now right.
    + apply Forall_forall. intros x Hx. apply repeat_spec in Hx. now subst.
Qed.

Lemma shifted_rows_get T B (a : ndarray F) (p : list F) m t b :
  has_shape T B a -> t < T ->
  get (NDArray B (skipn m (rows a) ++ repeat p (Nat.min m T))) t b =
  padded T (fun j => get a j b) (nth b p zero) (m + t).
Proof.
  intros Ha Ht. unfold get, padded. cbn [rows].
  pose proof (rows_length Ha) as Hlen.
  destruct (m + t <? T) eqn:E.
  - apply Nat.ltb_lt in E.
    rewrite app_nth1 by (rewrite length_skipn; lia). now rewrite nth_skipn.
  - apply Nat.ltb_ge in E.
    rewrite app_nth2 by (rewrite length_skipn; lia).
    rewrite nth_repeat_lt by (rewrite length_skipn; lia). reflexivity.
Qed.

(** What the function computes for a step count of at least two, on
    batch-major input of [B] sequences of length [T + 1], lambda being a
    scalar or an array that broadcasts to the time-major shape. *)
Lemma n_step_spec stop B T (r d v : ndarray F) (n : Z) lam :
  has_shape B (S T) r -> has_shape B (S T) d -> has_shape B (S T) v ->
  lambda_shape (S T) B lam -> (2 <= n)%Z ->
  exists out,
    batch_n_step_bootstrapped_returns r d v n lam stop = Ok out /\
    has_shape B (S T) out /\
    forall b t, b < B -> t < S T ->
      get out b t =
      n_step_unrolled
        (padded (S T) (fun i => get r b i) zero)
        (padded (S T) (fun i => get d b i) one)
        (padded (S T) (fun i => one .* lambda_at lam i b) one)
        (padded (S T) (fun i => get v b i) (get v b T))
        (Z.to_nat n) t.
Proof.
  intros Hr Hd Hv Hl Hn. rewrite (n_step_unfold stop lam Hr Hd Hv Hn).
  cbv zeta. set (m := Z.to_nat (n - 1)).
  replace (Z.to_nat n) with (S m) by (subst m; lia).
  set (v_last := nth T (rows (swapaxes v)) []).
  pose proof (layout_shape_swap Hr) as Hr'.
  pose proof (layout_shape_swap Hd) as Hd'.
  pose proof (layout_shape_swap Hv) as Hv'.
  pose proof (gae_lambda_shape lam Hd') as Hl'.
  assert (Hlast : length v_last = B)
    by (subst v_last; apply (has_shape_row Hv'); lia).
  assert (Hzero : length (repeat (zero (F := F)) B) = B) by apply repeat_length.
  assert (Hone : length (repeat (one (F := F)) B) = B) by apply repeat_length.
  pose proof (padded_rows_shape _ m Hr' Hzero) as HR.
  pose proof (padded_rows_shape _ m Hd' Hone) as HD.
  pose proof (padded_rows_shape _ m Hl' Hone) as HL.
  pose proof (padded_rows_shape _ m Hv' Hlast) as HV.
  pose proof (shifted_rows_shape _ m Hv' Hlast) as HT0.
  rewrite n_step_loop_fold.
  assert (Hinit : forall t b, t < S T -> b < B ->
    get (NDArray B (skipn m (rows (swapaxes v))
                    ++ repeat v_last (Nat.min m (S T)))) t b =
    get (NDArray B (rows (swapaxes v) ++ repeat v_last m)) (S m + t - 1) b).
  { intros t b Ht Hb. rewrite (shifted_rows_get _ _ _ Hv') by assumption.
    rewrite (padded_rows_get _ _ _ Hv') by lia. f_equal. lia. }
  assert (HN : S m + S T <= S (S T + m)) by lia.
  assert (Hm : 1 <= S m) by lia.
  destruct (n_step_loop_spec HR HD HL HV HT0 HN Hm Hinit (S m) 0 eq_refl)
    as (Hs & Hget).
  cbv zeta in Hs, Hget.
  eexists. split; [reflexivity|]. split; [now apply layout_shape_swap|].
  pose proof Hs as (Hs0 & Hs1 & _).
  pose proof Hr as (Hr0 & Hr1 & _). pose proof Hd as (Hd0 & Hd1 & _).
  pose proof Hv as (Hv0 & Hv1 & _).
  intros b t Hb Ht. rewrite get_swapaxes by lia. rewrite Hget by assumption.
  cbn [Nat.add].
  apply n_step_unrolled_ext with (N := S T + m); try lia.
  - intros j Hj. rewrite (padded_rows_get _ _ _ Hr') by assumption.
    unfold padded. destruct (j <? S T) eqn:E; [|apply nth_repeat].
    apply Nat.ltb_lt in E. apply get_swapaxes; lia.
  - intros j Hj. rewrite (padded_rows_get _ _ _ Hd') by assumption.
    unfold padded. destruct (j <? S T) eqn:E;
      [|apply nth_repeat_lt; assumption].
    apply Nat.ltb_lt in E. apply get_swapaxes; lia.
  - intros j Hj. rewrite (padded_rows_get _ _ _ Hl') by assumption.
    unfold padded. destruct (j <? S T) eqn:E;
      [|apply nth_repeat_lt; assumption].
    apply Nat.ltb_lt in E. now apply (gae_lambda_get lam Hd').
  - intros j Hj. rewrite (padded_rows_get _ _ _ Hv') by assumption.
    unfold padded. destruct (j <? S T) eqn:E.
    + apply Nat.ltb_lt in E. apply get_swapaxes; lia.
    + subst v_last. change (nth b (nth T (rows (swapaxes v)) []) zero)
        with (get (swapaxes v) T b). apply get_swapaxes; lia.
Qed.
End NStepSpec.

(** A step count below two: the pad [jnp.array([v_t[-1]] * pad_size)] is
    [jnp.array([])], of rank 1, and the first [jnp.concatenate] refuses it;
    on an empty time axis [v_t[-1]] fails before that. *)
Lemma n_step_small_count_fails {F : Type} {Sc : Scalar F}
  (r d v : ndarray F) (n : Z) lam stop :
  (n <= 1)%Z ->
  batch_n_step_bootstrapped_returns r d v n lam stop =
  Err (if shape1 v =? 0 then IndexError else TypeError).
Proof.
  intros Hn. unfold batch_n_step_bootstrapped_returns.
  assert (Hlast : index_last (swapaxes v) =
                  if shape1 v =? 0 then Err IndexError
                  else Ok (last (rows (swapaxes v)) [])).
  { unfold index_last, swapaxes. cbn [rows].
    now destruct (shape1 v). }
  rewrite Hlast. destruct (shape1 v =? 0); [reflexivity|].
  cbn [bind]. unfold list_times.
  replace (Z.to_nat (Z.min (n - 1) (Z.of_nat (shape0 (swapaxes r))))) with 0
    by lia.
  reflexivity.
Qed.

(** ** The unrolled target in exact arithmetic *)

Section NStepExact.
Context {F : Type} {Sc : Scalar F} {E : ExactArith F}.
Add Ring n_step_exact_ring : exact_ring.

Variables (T : nat) (r d l v : nat -> F).

(** Past the end of the sequence the padded recursion only repeats the
    last bootstrap value. *)
Lemma n_step_unrolled_past_end k j :
  1 <= T -> T <= j ->
  n_step_unrolled (padded T r zero) (padded T d one) (padded T l one)
    (padded T v (v (T - 1))) k j = v (T - 1).
Proof.
  intros HT. revert j. induction k as [|k IH]; intros j Hj;
    cbn [n_step_unrolled].
  - unfold padded. destruct (j - 1 <? T) eqn:Ej; [|reflexivity].
    apply Nat.ltb_lt in Ej. f_equal. lia.
  - rewrite IH by lia. unfold padded.
    replace (j <? T) with false by (symmetry; apply Nat.ltb_ge; lia). ring.
Qed.

(** A lookahead that reaches the end is the return truncated there,
    bootstrapped from the last value. *)
Lemma n_step_unrolled_truncated k j :
  1 <= T -> j <= T -> T <= j + k ->
  n_step_unrolled (padded T r zero) (padded T d one) (padded T l one)
    (padded T v (v (T - 1))) k j =
  n_step_unrolled r d l v (T - j) j.
Proof.
  intros HT. revert j. induction k as [|k IH]; intros j Hj Hk.
  - assert (j = T) by lia. subst j. rewrite Nat.sub_diag.
    cbn [n_step_unrolled]. unfold padded.
    now replace (T - 1 <? T) with true by (symmetry; apply Nat.ltb_lt; lia).
  - destruct (Nat.eq_dec j T) as [->|Hne].
    + rewrite n_step_unrolled_past_end by lia. now rewrite Nat.sub_diag.
    + replace (T - j) with (S (T - (1 + j))) by lia.
      cbn [n_step_unrolled]. rewrite IH by lia. unfold padded.
      now replace (j <? T) with true by (symmetry; apply Nat.ltb_lt; lia).
Qed.
End NStepExact.

Section NStepExactSpec.
Context {F : Type} {Sc : Scalar F} {E : ExactArith F}.

Add Ring n_step_spec_ring : exact_ring.

Lemma exact_mul_one_l (x : F) : one .* x = x.
Proof. ring. Qed.

(** One pass of the loop over the unpadded sequences, started from the
    bootstrap values themselves, is the one-step bootstrap whatever lambda
    is: what a step count of one is meant to compute. *)
Lemma n_step_single_pass T B (r d l v : ndarray F) t b :
  has_shape T B r -> has_shape T B d -> has_shape T B l -> has_shape T B v ->
  t < T -> b < B ->
  get (n_step_pass T r d l v v 0) t b = get r t b .+ get d t b .* get v t b.
Proof.
  intros Hr Hd Hl Hv Ht Hb.
  rewrite (n_step_pass_get (N := T) (T := T) (B := B)); auto.
  cbn [Nat.add]. ring.
Qed.

(** In exact arithmetic: the target is the recursion unrolled [n] times
    over the padded sequences, and where the lookahead reaches the end of
    the sequence it is the return truncated there. *)
Lemma n_step_exact_spec stop B T (r d v : ndarray F) (n : Z) lam :
  has_shape B (S T) r -> has_shape B (S T) d -> has_shape B (S T) v ->
  lambda_shape (S T) B lam -> (2 <= n)%Z ->
  exists out,
    batch_n_step_bootstrapped_returns r d v n lam stop = Ok out /\
    has_shape B (S T) out /\
    forall b t, b < B -> t < S T ->
      get out b t =
        n_step_unrolled
          (padded (S T) (get r b) zero) (padded (S T) (get d b) one)
          (padded (S T) (fun i => lambda_at lam i b) one)
          (padded (S T) (get v b) (get v b T))
          (Z.to_nat n) t
      /\ (S T <= t + Z.to_nat n ->
          get out b t =
            n_step_unrolled (get r b) (get d b)
              (fun i => lambda_at lam i b) (get v b) (S T - t) t).
Proof.
  intros Hr Hd Hv Hl Hn.
  destruct (n_step_spec stop lam Hr Hd Hv Hl Hn) as (out & Hout & Hs & Hget).
  exists out. split; [assumption|]. split; [assumption|].
  intros b t Hb Ht.
  assert (Hpad : get out b t =
    n_step_unrolled
      (padded (S T) (get r b) zero) (padded (S T) (get d b) one)
      (padded (S T) (fun i => lambda_at lam i b) one)
      (padded (S T) (get v b) (get v b T))
      (Z.to_nat n) t).
  { rewrite Hget by assumption.
    apply n_step_unrolled_ext with (N := t + Z.to_nat n); try lia;
      try reflexivity.
    intros j _. unfold padded. destruct (j <? S T); [|reflexivity].
    apply exact_mul_one_l. }
  split; [exact Hpad|]. intros Hend. rewrite Hpad.
  pose proof (@n_step_unrolled_truncated F Sc E (S T) (get r b) (get d b)
                (fun i => lambda_at lam i b) (get v b) (Z.to_nat n) t) as Htr.
  replace (S T - 1) with T in Htr by lia. apply Htr; lia.
Qed.
End NStepExactSpec.

(** ** The functions on small inputs *)

Example n_step_two_steps :
  batch_n_step_bootstrapped_returns
    (NDArray 4 [[1; 1; 1; 1]; [1; 2; 3; 4]]%Z)
    (NDArray 4 [[1; 1; 1; 1]; [1; 1; 1; 1]]%Z)
    (NDArray 4 [[0; 0; 0; 0]; [5; 6; 7; 8]]%Z) 2 (LScalar 1%Z) true =
  Ok (NDArray 4 [[2; 2; 2; 1]; [9; 12; 15; 12]]%Z).
Proof. reflexivity. Qed.

Example n_step_mixed_lambda :
  batch_n_step_bootstrapped_returns
    (NDArray 3 [[1; 2; 3]]%Z) (NDArray 3 [[2; 2; 2]]%Z)
    (NDArray 3 [[5; 6; 7]]%Z) 2
    (LArray (NDArray 1 [[0]; [1]; [2]]%Z)) false =
  Ok (NDArray 3 [[11; 36; 17]]%Z).
Proof. reflexivity. Qed.

Example n_step_one_step_example :
  batch_n_step_bootstrapped_returns
    (NDArray 2 [[Q2Qc 1; Q2Qc 2]]) (NDArray 2 [[Q2Qc 0.5; Q2Qc 0.5]])
    (NDArray 2 [[Q2Qc 3; Q2Qc 4]]) 1 (LScalar (Q2Qc 1)) true =
  Err TypeError.
Proof. reflexivity. Qed.

Example gae_batch_major_example :
  batch_truncated_generalized_advantage_estimation
    (NDArray 3 [[1; 1; 1]; [2; 0; 1]]%Z) (NDArray 3 [[2; 2; 2]; [1; 0; 3]]%Z)
    (LScalar 1%Z) (NDArray 4 [[0; 0; 0; 0]; [5; 1; 2; 1]]%Z) true false =
  (NDArray 3 [[7; 3; 1]; [-3; -1; 2]]%Z, NDArray 3 [[7; 3; 1]; [2; 0; 4]]%Z).
Proof. reflexivity. Qed.

Example off_policy_example :
  batch_general_off_policy_returns_from_q_and_v
    (NDArray 2 [[1; 2]; [3; 4]]%Z) (NDArray 3 [[1; 2; 3]; [3; 4; 5]]%Z)
    (NDArray 3 [[1; 1; 1]; [2; 2; 2]]%Z) (NDArray 3 [[1; 1; 1]; [1; 1; 1]]%Z)
    (NDArray 2 [[1; 2]; [3; 4]]%Z) false =
  Ok (NDArray 3 [[8; 7; 4]; [50; 18; 7]]%Z).
Proof. reflexivity. Qed.

Example off_policy_empty_time_axis :
  batch_general_off_policy_returns_from_q_and_v
    (NDArray 0 [[]; []]) (NDArray 0 [[]; []]) (NDArray 0 [[]; []])
    (NDArray 0 [[]; []]) (NDArray 0 [[]; []]) false =
  Err (A := ndarray Z) IndexError.
Proof. reflexivity. Qed.

Example check_total_timesteps_zero_rollout :
  TotalTimesteps.check_total_timesteps 1
    (TotalTimesteps.Config
       (TotalTimesteps.ArchConfig (Some 100%Z) None 4%Z)
       (TotalTimesteps.SystemConfig 0%Z 3%Z)) = Err ZeroDivisionError.
Proof. reflexivity. Qed.

Example check_total_timesteps_nothing_set :
  TotalTimesteps.check_total_timesteps 1
    (TotalTimesteps.Config
       (TotalTimesteps.ArchConfig None None 4%Z)
       (TotalTimesteps.SystemConfig 8%Z 3%Z)) = Err TypeError.
Proof. reflexivity. Qed.

Example check_total_timesteps_from_updates :
  TotalTimesteps.check_total_timesteps 2
    (TotalTimesteps.Config
       (TotalTimesteps.ArchConfig None (Some 5%Z) 4%Z)
       (TotalTimesteps.SystemConfig 8%Z 3%Z)) =
  Ok (TotalTimesteps.Config
        (TotalTimesteps.ArchConfig (Some 960%Z) (Some 5%Z) 4%Z)
        (TotalTimesteps.SystemConfig 8%Z 3%Z), []).
Proof. reflexivity. Qed.

(** * The claims *)

(** ** Generalized off-policy returns and retrace *)

Section OffPolicyClaims.
Context {F : Type} {Sc : Scalar F}.

(** C1.  For [q] and [c] over [K] steps and [v], [r], [d] over [K + 1]
    steps (batch-major, [B] sequences),
    [batch_general_off_policy_returns_from_q_and_v] returns the sequence
    [g] over [K + 1] steps with the terminal estimate
    [g_K = r_K + d_K * v_K], the same for every [c] and [q], and
    [g_t = r_t + d_t * (v_t - c_t * q_t + c_t * g_{t+1})] before it
    (array positions; position [t] holds the quantity the specification
    indexes [t + 1]).  No law of arithmetic is used. *)
Theorem off_policy_returns_recursion
  (stop : bool) (B K : nat) (q v r d c : ndarray F) :
  has_shape B K q -> has_shape B (S K) v -> has_shape B (S K) r ->
  has_shape B (S K) d -> has_shape B K c ->
  exists g,
    batch_general_off_policy_returns_from_q_and_v q v r d c stop = Ok g /\
    has_shape B (S K) g /\
    (forall b, b < B ->
       get g b K = get r b K .+ get d b K .* get v b K /\
       forall t, t < K ->
         get g b t =
         get r b t
         .+ get d b t
            .* (get v b t .- get c b t .* get q b t
                .+ get c b t .* get g b (S t))) /\
    (forall q' c' g', has_shape B K q' -> has_shape B K c' ->
       batch_general_off_policy_returns_from_q_and_v q' v r d c' stop = Ok g' ->
       forall b, b < B -> get g' b K = get g b K).
Proof.
  intros Hq Hv Hr Hd Hc.
  destruct (off_policy_spec stop Hq Hv Hr Hd Hc) as (g & Hg & Hs & Hget).
  exists g. split; [exact Hg|]. split; [exact Hs|]. split; [exact Hget|].
  intros q' c' g' Hq' Hc' Hg' b Hb.
  destruct (off_policy_spec stop Hq' Hv Hr Hd Hc') as (g2 & Hg2 & _ & Hget2).
  rewrite Hg2 in Hg'. injection Hg' as <-.
  destruct (Hget b Hb) as (-> & _). now destruct (Hget2 b Hb) as (-> & _).
Qed.

Context {Tr : Transcendental F}.

(** C4.  For stale Q-values, [v], [r], [d] over [K + 1] steps and [q],
    log-ratios over [K] steps (batch-major; lambda a scalar or an array
    that broadcasts to the shape of the log-ratios),
    [batch_retrace_continuous] returns
    [g - q_tm1], where [g] is what
    [batch_general_off_policy_returns_from_q_and_v] returns for the
    mixing weights [c_t = min(1, exp(log_rho_t)) * lambda_t]. *)
Theorem retrace_is_off_policy_return_minus_stale_q
  (stop : bool) (B K : nat) (q_tm1 q_t v r d log_rhos : ndarray F)
  (lam : scalar_or_array F) :
  has_shape B (S K) q_tm1 -> has_shape B K q_t -> has_shape B (S K) v ->
  has_shape B (S K) r -> has_shape B (S K) d -> has_shape B K log_rhos ->
  lambda_shape B K lam ->
  exists c g out,
    has_shape B K c /\
    (forall b t, b < B -> t < K ->
       get c b t = minimum one (exp (get log_rhos b t)) .* lambda_at lam b t) /\
    batch_general_off_policy_returns_from_q_and_v q_t v r d c false = Ok g /\
    batch_retrace_continuous q_tm1 q_t v r d log_rhos lam stop = Ok out /\
    has_shape B (S K) out /\
    forall b t, b < B -> t < S K -> get out b t = get g b t .- get q_tm1 b t.
Proof.
  intros Hq1 Hq Hv Hr Hd Hrho Hl.
  set (c := mul_broadcast
              (arr_map (fun x => minimum one (exp x)) log_rhos) lam).
  assert (Hc : has_shape B K c)
    by (apply mul_broadcast_shape; auto using arr_map_shape).
  destruct (off_policy_spec false Hq Hv Hr Hd Hc) as (g & Hg & Hgs & _).
  exists c, g, (arr_sub g q_tm1). split; [assumption|]. split.
  { intros b t Hb Ht. subst c.
    rewrite (get_mul_broadcast (m := B) (n := K)); auto using arr_map_shape.
    now rewrite (get_arr_map (m := B) (n := K)). }
  split; [assumption|]. split.
  { unfold batch_retrace_continuous. fold c. rewrite Hg. cbn [bind].
    now rewrite lax_select_stop_gradient. }
  split; [now apply arr_zip_shape|].
  intros b t Hb Ht. unfold arr_sub.
  now rewrite (get_arr_zip (m := B) (n := S K)).
Qed.

End OffPolicyClaims.

(** ** Generalized advantage estimation *)

Section GAEClaims.
Context {F : Type} {Sc : Scalar F}.

(** C2.  For rewards and discounts over [K] steps, values over [K + 1]
    steps, in either layout, and lambda a scalar or an array that
    broadcasts to the time-major shape [(K, B)] (per-step values have shape
    [(K, 1)]; the function multiplies lambda with the time-major discounts
    in both layouts),
    [batch_truncated_generalized_advantage_estimation] returns advantages
    [A_t = delta_t + d_t * lambda_t * A_{t+1}] with
    [delta_t = r_t + d_t * v_{t+1} - v_t] and [A_K = 0], and target values
    [target_t = v_t + A_t], for every batch entry and every step; the
    only law of arithmetic used is [1 * x = x], for the broadcast of
    lambda. *)
Theorem gae_backward_recursion
  (mul_one_l : forall x : F, one .* x = x)
  (time_major stop : bool) (B K : nat) (r d v : ndarray F)
  (lam : scalar_or_array F) :
  layout_shape time_major B K r -> layout_shape time_major B K d ->
  layout_shape time_major B (S K) v -> lambda_shape K B lam ->
  let res := batch_truncated_generalized_advantage_estimation
               r d lam v stop time_major in
  let delta b t :=
    at_time time_major r b t
    .+ at_time time_major d b t .* at_time time_major v b (S t)
    .- at_time time_major v b t in
  let A b t := if t <? K then at_time time_major (fst res) b t else zero in
  layout_shape time_major B K (fst res) /\
  layout_shape time_major B K (snd res) /\
  forall b t, b < B -> t < K ->
    A b t = delta b t .+ at_time time_major d b t .* lambda_at lam t b .* A b (S t)
    /\ at_time time_major (snd res) b t = at_time time_major v b t .+ A b t.
Proof.
  destruct time_major; cbn [layout_shape at_time]; intros Hr Hd Hv Hl.
  - destruct (gae_time_major_spec lam stop Hr Hd Hv Hl) as (Ha & Ht & Hget).
    cbv zeta. split; [assumption|]. split; [assumption|].
    intros b t Hb Ht'. destruct (Hget t b Ht' Hb) as (H1 & H2).
    apply Nat.ltb_lt in Ht' as ->. rewrite H1 at 1.
    rewrite mul_one_l. split; [reflexivity | exact H2].
  - pose proof (layout_shape_swap Hr) as Hr'.
    pose proof (layout_shape_swap Hd) as Hd'.
    pose proof (layout_shape_swap Hv) as Hv'.
    destruct (gae_time_major_spec lam stop Hr' Hd' Hv' Hl) as (Ha & Ht & Hget).
    cbv zeta. rewrite gae_batch_major. cbv zeta. cbn [fst snd].
    set (res := batch_truncated_generalized_advantage_estimation
                  (swapaxes r) (swapaxes d) lam (swapaxes v) stop true) in *.
    split; [now apply layout_shape_swap|].
    split; [now apply layout_shape_swap|].
    pose proof Ha as (Ha0 & Ha1 & _). pose proof Ht as (Ht0 & Ht1 & _).
    pose proof Hr as (Hr0 & Hr1 & _). pose proof Hd as (Hd0 & Hd1 & _).
    pose proof Hv as (Hv0 & Hv1 & _).
    intros b t Hb Ht'. destruct (Hget t b Ht' Hb) as (H1 & H2).
    repeat rewrite get_swapaxes in H1 by lia.
    repeat rewrite get_swapaxes in H2 by lia.
    assert (HS : (if S t <? K then get (swapaxes (fst res)) b (S t) else zero) =
                 (if S t <? K then get (fst res) (S t) b else zero)).
    { destruct (S t <? K) eqn:E; [|reflexivity].
      apply Nat.ltb_lt in E. apply get_swapaxes; lia. }
    rewrite HS. repeat rewrite get_swapaxes by lia.
    apply Nat.ltb_lt in Ht' as ->. rewrite H1 at 1.
    rewrite mul_one_l. split; [reflexivity | exact H2].
Qed.

(** C8.  For a batch-major trajectory of [B] sequences, any lambda (a
    scalar, or an array that broadcasts to the time-major shape, passed
    unchanged to both calls) and either gradient-stop setting, the call with
    [time_major=True] on the transposed input returns the transposes of
    what the call with [time_major=False] returns on the original input. *)
Theorem gae_layout_invariance
  (stop : bool) (B K : nat) (r d v : ndarray F) (lam : scalar_or_array F) :
  has_shape B K r -> has_shape B K d -> has_shape B (S K) v ->
  lambda_shape K B lam ->
  batch_truncated_generalized_advantage_estimation
    (swapaxes r) (swapaxes d) lam (swapaxes v) stop true =
  (swapaxes (fst (batch_truncated_generalized_advantage_estimation
                    r d lam v stop false)),
   swapaxes (snd (batch_truncated_generalized_advantage_estimation
                    r d lam v stop false))).
Proof.
  intros Hr Hd Hv Hl. rewrite gae_batch_major. cbv zeta. cbn [fst snd].
  destruct (gae_time_major_spec lam stop (layout_shape_swap Hr)
              (layout_shape_swap Hd) (layout_shape_swap Hv) Hl)
    as (Ha & Ht & _).
  rewrite (swapaxes_involutive Ha), (swapaxes_involutive Ht).
  apply surjective_pairing.
Qed.
End GAEClaims.

Section GAEExactClaims.
Context {F : Type} {Sc : Scalar F} {E : ExactArith F}.
Add Ring exact_arith_ring : exact_ring.

(** C7.  In exact arithmetic, for rewards and discounts over [K] steps and
    values over [K + 1] steps, in either layout, the advantages returned
    with lambda = 0 are the one-step residuals
    [r_t + d_t * v_{t+1} - v_t] at every step of every batch entry. *)
Theorem gae_lambda_zero_is_td_residual
  (time_major stop : bool) (B K : nat) (r d v : ndarray F) :
  layout_shape time_major B K r -> layout_shape time_major B K d ->
  layout_shape time_major B (S K) v ->
  forall b t, b < B -> t < K ->
    at_time time_major
      (fst (batch_truncated_generalized_advantage_estimation
              r d (LScalar zero) v stop time_major)) b t =
    at_time time_major r b t
    .+ at_time time_major d b t .* at_time time_major v b (S t)
    .- at_time time_major v b t.
Proof.
  destruct time_major; cbn [layout_shape at_time]; intros Hr Hd Hv b t Hb Ht.
  - destruct (gae_time_major_spec (LScalar zero) stop Hr Hd Hv I)
      as (_ & _ & Hget).
    destruct (Hget t b Ht Hb) as (H1 & _). rewrite H1. cbn [lambda_at]. ring.
  - pose proof (layout_shape_swap Hr) as Hr'.
    pose proof (layout_shape_swap Hd) as Hd'.
    pose proof (layout_shape_swap Hv) as Hv'.
    destruct (gae_time_major_spec (LScalar zero) stop Hr' Hd' Hv' I)
      as (Ha & _ & Hget).
    rewrite gae_batch_major. cbv zeta. cbn [fst].
    pose proof Ha as (Ha0 & Ha1 & _).
    pose proof Hr as (Hr0 & Hr1 & _). pose proof Hd as (Hd0 & Hd1 & _).
    pose proof Hv as (Hv0 & Hv1 & _).
    rewrite get_swapaxes by lia.
    destruct (Hget t b Ht Hb) as (H1 & _). rewrite H1. cbn [lambda_at].
    repeat rewrite get_swapaxes by lia. ring.
Qed.
End GAEExactClaims.

(** ** N-step bootstrapped returns *)

Section NStepFailureClaims.
Context {F : Type} {Sc : Scalar F}.

(** C6.  With a step count of one the call does not return the one-step
    bootstrap: it raises, for every input.  The padding of the bootstrap
    values is [jnp.array([])], of shape [(0,)], which [jnp.concatenate]
    does not join to the rank-2 values (an empty time axis fails on
    [v_t[-1]] already). *)
Theorem n_step_one_raises
  (r d v : ndarray F) (lam : scalar_or_array F) (stop : bool) :
  batch_n_step_bootstrapped_returns r d v 1 lam stop =
  Err (if shape1 v =? 0 then IndexError else TypeError).
Proof. apply n_step_small_count_fails. lia. Qed.

(** C9.  For every input and every step count [n <= 0] the call raises
    before any result is formed, at the first statement that uses [n]:
    TypeError from [jnp.concatenate], or IndexError from [v_t[-1]] when
    the time axis is empty. *)
Theorem n_step_nonpositive_count_raises
  (r d v : ndarray F) (n : Z) (lam : scalar_or_array F) (stop : bool) :
  (n <= 0)%Z ->
  batch_n_step_bootstrapped_returns r d v n lam stop =
  Err (if shape1 v =? 0 then IndexError else TypeError).
Proof. intros Hn. apply n_step_small_count_fails. lia. Qed.
End NStepFailureClaims.

Section NStepClaims.
Context {F : Type} {Sc : Scalar F} {E : ExactArith F}.

(** C3.  In exact arithmetic, for [B] sequences of length [T + 1], lambda
    a scalar or an array that broadcasts to the time-major shape, and a
    step count of at least two, the targets are the one-step recursion
    unrolled [n] times over the sequences continued past their end by
    zero rewards, unit discounts, unit lambdas and the last bootstrap
    value; a target whose lookahead reaches the end is therefore the
    return truncated at the end and bootstrapped from the last value.
    For rewards [1,1,1,1], discounts 1, values 0 and [n = 10] the targets
    are [4,3,2,1]. *)
Theorem n_step_terminal_padding
  (stop : bool) (B T : nat) (r d v : ndarray F) (n : Z)
  (lam : scalar_or_array F) :
  has_shape B (S T) r -> has_shape B (S T) d -> has_shape B (S T) v ->
  lambda_shape (S T) B lam -> (2 <= n)%Z ->
  (exists out,
     batch_n_step_bootstrapped_returns r d v n lam stop = Ok out /\
     has_shape B (S T) out /\
     forall b t, b < B -> t < S T ->
       get out b t =
         n_step_unrolled
           (padded (S T) (get r b) zero) (padded (S T) (get d b) one)
           (padded (S T) (fun i => lambda_at lam i b) one)
           (padded (S T) (get v b) (get v b T))
           (Z.to_nat n) t
       /\ (S T <= t + Z.to_nat n ->
           get out b t =
             n_step_unrolled (get r b) (get d b)
               (fun i => lambda_at lam i b) (get v b) (S T - t) t))
  /\
  batch_n_step_bootstrapped_returns
    (NDArray 4 [[1; 1; 1; 1]]%Qc) (NDArray 4 [[1; 1; 1; 1]]%Qc)
    (NDArray 4 [[0; 0; 0; 0]]%Qc) 10 (LScalar 1%Qc) true =
  Ok (NDArray 4 [[Q2Qc 4; Q2Qc 3; Q2Qc 2; Q2Qc 1]]).
Proof.
  intros Hr Hd Hv Hl Hn. split; [now apply n_step_exact_spec|].
  vm_compute batch_n_step_bootstrapped_returns. qc_array_eq.
Qed.
End NStepClaims.

(** C5.  For rewards [[1,1,1]], discounts [[0.9,0.9,0.9]], values
    [[0,0,0,0]] and lambda 1 the advantages of
    [batch_truncated_generalized_advantage_estimation] are the discounted
    sums [2.71, 1.9, 1] of the remaining rewards, and so are the returns of
    [batch_n_step_bootstrapped_returns] on the values at times 1 to 3 for
    every step count that covers the horizon ([n >= 3]). *)
Theorem gae_lambda_one_matches_full_horizon_n_step (n : Z) :
  (3 <= n)%Z ->
  let r := NDArray 3 [[1; 1; 1]]%Qc in
  let d := NDArray 3 [[Q2Qc 0.9; Q2Qc 0.9; Q2Qc 0.9]] in
  let values := NDArray 4 [[0; 0; 0; 0]]%Qc in
  let v := NDArray 3 [[0; 0; 0]]%Qc in
  let sums := NDArray 3 [[Q2Qc 2.71; Q2Qc 1.9; Q2Qc 1]] in
  fst (batch_truncated_generalized_advantage_estimation
         r d (LScalar 1%Qc) values true false) = sums /\
  batch_n_step_bootstrapped_returns r d v n (LScalar 1%Qc) true = Ok sums.
Proof.
  intros Hn r d values v sums. split.
  - vm_compute. qc_array_eq.
  - assert (Hr : has_shape 1 3 r) by (apply has_shape_iff; reflexivity).
    assert (Hd : has_shape 1 3 d) by (apply has_shape_iff; reflexivity).
    assert (Hv : has_shape 1 3 v) by (apply has_shape_iff; reflexivity).
    assert (Hn2 : (2 <= n)%Z) by lia.
    destruct (n_step_exact_spec true (LScalar 1%Qc) Hr Hd Hv I Hn2)
      as (out & -> & Hs & Hget).
    f_equal. apply (ndarray_ext (m := 1) (n := 3)); [assumption| |].
    + apply has_shape_iff. reflexivity.
    + intros b t Hb Ht. destruct (Hget b t Hb Ht) as (_ & Hend).
      rewrite Hend by lia.
      assert (b = 0) by lia. subst b.
      destruct t as [|[|[|t]]]; [| | |lia];
        apply Qc_is_canon; vm_compute; reflexivity.
Qed.

(** ** The total-timestep helper *)

Module TotalTimestepsFacts.
Import TotalTimesteps.
#[local] Open Scope Z_scope.

(** C10.  [check_total_timesteps] returns the configuration it was given
    with one field rewritten.  When [arch.total_timesteps] is [None] (and
    [arch.num_updates] is set) it becomes
    [n_devices * num_updates * rollout_length * update_batch_size * num_envs];
    otherwise it stays and [arch.num_updates] becomes
    [total_timesteps // rollout_length // update_batch_size // num_envs // n_devices]
    (the divisors being non-zero). *)
Theorem check_total_timesteps_rewrites_one_field (n_devices : Z) (c : config) :
  (total_timesteps (arch c) = None ->
   forall updates, num_updates (arch c) = Some updates ->
     check_total_timesteps n_devices c =
     Ok (Config
           (ArchConfig
              (Some (n_devices * updates * rollout_length (system c)
                     * update_batch_size (system c) * num_envs (arch c)))
              (num_updates (arch c)) (num_envs (arch c)))
           (system c), []))
  /\
  (forall total, total_timesteps (arch c) = Some total ->
     rollout_length (system c) <> 0 -> update_batch_size (system c) <> 0 ->
     num_envs (arch c) <> 0 -> n_devices <> 0 ->
     let updates :=
       total / rollout_length (system c) / update_batch_size (system c)
       / num_envs (arch c) / n_devices in
     check_total_timesteps n_devices c =
     Ok (Config
           (ArchConfig (total_timesteps (arch c)) (Some updates)
              (num_envs (arch c)))
           (system c), [ChangingNumUpdates updates])).
Proof.
  split.
  - intros Hnone updates Hupd. unfold check_total_timesteps.
    now rewrite Hnone, Hupd.
  - intros total Hsome H1 H2 H3 H4 updates. unfold check_total_timesteps.
    rewrite Hsome. unfold floordiv.
    apply Z.eqb_neq in H1, H2, H3, H4. rewrite H1. cbn [bind].
    rewrite H2. cbn [bind]. rewrite H3. cbn [bind]. rewrite H4. cbn [bind].
    now rewrite <- Hsome.
Qed.
End TotalTimestepsFacts.

(** ** The claims at concrete inputs *)

Lemma gae_backward_recursion_witness :
  let r := NDArray 3 [[1; 1; 1]; [2; 0; 1]]%Z in
  let d := NDArray 3 [[2; 2; 2]; [1; 0; 3]]%Z in
  let v := NDArray 4 [[0; 0; 0; 0]; [5; 1; 2; 1]]%Z in
  let res := batch_truncated_generalized_advantage_estimation
               r d (LScalar 1%Z) v true false in
  (has_shape 2 3 (fst res) /\ has_shape 2 3 (snd res)) /\
  res = (NDArray 3 [[7; 3; 1]; [-3; -1; 2]]%Z, NDArray 3 [[7; 3; 1]; [2; 0; 4]]%Z).
Proof.
  cbv zeta. split; [|vm_compute; reflexivity].
  pose proof (@gae_backward_recursion Z Z_Scalar Z.mul_1_l false true 2 3
                (NDArray 3 [[1; 1; 1]; [2; 0; 1]]%Z)
                (NDArray 3 [[2; 2; 2]; [1; 0; 3]]%Z)
                (NDArray 4 [[0; 0; 0; 0]; [5; 1; 2; 1]]%Z)
                (LScalar 1%Z)) as H.
  cbn [layout_shape] in H.
  destruct H as (H1 & H2 & _);
    try (apply has_shape_iff; vm_compute; reflexivity); [exact I|].
  split; assumption.
Defined.

Lemma off_policy_returns_recursion_witness :
  exists g,
    batch_general_off_policy_returns_from_q_and_v
      (NDArray 2 [[1; 2]; [3; 4]]%Z) (NDArray 3 [[1; 2; 3]; [3; 4; 5]]%Z)
      (NDArray 3 [[1; 1; 1]; [2; 2; 2]]%Z) (NDArray 3 [[1; 1; 1]; [1; 1; 1]]%Z)
      (NDArray 2 [[1; 2]; [3; 4]]%Z) false = Ok g /\
    has_shape 2 3 g /\
    g = NDArray 3 [[8; 7; 4]; [50; 18; 7]]%Z.
Proof.
  destruct (@off_policy_returns_recursion Z Z_Scalar false 2 2
              (NDArray 2 [[1; 2]; [3; 4]]%Z) (NDArray 3 [[1; 2; 3]; [3; 4; 5]]%Z)
              (NDArray 3 [[1; 1; 1]; [2; 2; 2]]%Z)
              (NDArray 3 [[1; 1; 1]; [1; 1; 1]]%Z)
              (NDArray 2 [[1; 2]; [3; 4]]%Z))
    as (g & Hg & Hs & _); try (apply has_shape_iff; reflexivity).
  exists g. split; [exact Hg|]. split; [exact Hs|].
  vm_compute in Hg. now injection Hg as <-.
Defined.

Lemma n_step_terminal_padding_witness :
  exists out,
    batch_n_step_bootstrapped_returns
      (NDArray 4 [[1; 1; 1; 1]]%Qc) (NDArray 4 [[1; 1; 1; 1]]%Qc)
      (NDArray 4 [[0; 0; 0; 0]]%Qc) 10 (LScalar 1%Qc) true = Ok out /\
    has_shape 1 4 out.
Proof.
  destruct (@n_step_terminal_padding Qc Qc_Scalar Qc_ExactArith true 1 3
              (NDArray 4 [[1; 1; 1; 1]]%Qc) (NDArray 4 [[1; 1; 1; 1]]%Qc)
              (NDArray 4 [[0; 0; 0; 0]]%Qc) 10 (LScalar 1%Qc))
    as ((out & Hout & Hshape & _) & _);
    try (apply has_shape_iff; reflexivity); [exact I | lia |].
  exists out. split; assumption.
Defined.

Lemma retrace_is_off_policy_return_minus_stale_q_witness :
  exists c g out,
    has_shape 1 2 c /\
    (forall b t, b < 1 -> t < 2 ->
       get c b t =
       minimum one (exp (get (NDArray 2 [[0; 1]]%R) b t))
       .* lambda_at (LScalar 1%R) b t) /\
    batch_general_off_policy_returns_from_q_and_v
      (NDArray 2 [[1; 2]]%R) (NDArray 3 [[1; 2; 3]]%R)
      (NDArray 3 [[1; 1; 1]]%R) (NDArray 3 [[1; 1; 1]]%R) c false = Ok g /\
    batch_retrace_continuous
      (NDArray 3 [[0; 1; 2]]%R) (NDArray 2 [[1; 2]]%R)
      (NDArray 3 [[1; 2; 3]]%R) (NDArray 3 [[1; 1; 1]]%R)
      (NDArray 3 [[1; 1; 1]]%R) (NDArray 2 [[0; 1]]%R) (LScalar 1%R) true =
    Ok out /\
    has_shape 1 3 out /\
    forall b t, b < 1 -> t < 3 ->
      get out b t = get g b t .- get (NDArray 3 [[0; 1; 2]]%R) b t.
Proof.
  apply (@retrace_is_off_policy_return_minus_stale_q R R_Scalar
           R_Transcendental true 1 2);
    try (apply has_shape_iff; reflexivity).
  exact I.
Defined.

Lemma gae_lambda_one_matches_full_horizon_n_step_witness :
  fst (batch_truncated_generalized_advantage_estimation
         (NDArray 3 [[1; 1; 1]]%Qc)
         (NDArray 3 [[Q2Qc 0.9; Q2Qc 0.9; Q2Qc 0.9]])
         (LScalar 1%Qc) (NDArray 4 [[0; 0; 0; 0]]%Qc) true false) =
  NDArray 3 [[Q2Qc 2.71; Q2Qc 1.9; Q2Qc 1]] /\
  batch_n_step_bootstrapped_returns
    (NDArray 3 [[1; 1; 1]]%Qc) (NDArray 3 [[Q2Qc 0.9; Q2Qc 0.9; Q2Qc 0.9]])
    (NDArray 3 [[0; 0; 0]]%Qc) 3 (LScalar 1%Qc) true =
  Ok (NDArray 3 [[Q2Qc 2.71; Q2Qc 1.9; Q2Qc 1]]).
Proof. apply (@gae_lambda_one_matches_full_horizon_n_step 3%Z). lia. Defined.

Lemma gae_lambda_zero_is_td_residual_witness :
  at_time false
    (fst (batch_truncated_generalized_advantage_estimation
            (NDArray 3 [[1; 1; 1]; [2; 0; 1]]%Z)
            (NDArray 3 [[2; 2; 2]; [1; 0; 3]]%Z) (LScalar 0%Z)
            (NDArray 4 [[0; 0; 0; 0]; [5; 1; 2; 1]]%Z) true false)) 1 0 =
  (2 + 1 * 1 - 5)%Z.
Proof.
  apply (@gae_lambda_zero_is_td_residual Z Z_Scalar Z_ExactArith false true
           2 3 (NDArray 3 [[1; 1; 1]; [2; 0; 1]]%Z)
           (NDArray 3 [[2; 2; 2]; [1; 0; 3]]%Z)
           (NDArray 4 [[0; 0; 0; 0]; [5; 1; 2; 1]]%Z));
    try (apply has_shape_iff; reflexivity); lia.
Defined.

Lemma gae_layout_invariance_witness :
  let r := NDArray 3 [[1; 1; 1]; [2; 0; 1]]%Z in
  let d := NDArray 3 [[2; 2; 2]; [1; 0; 3]]%Z in
  let v := NDArray 4 [[0; 0; 0; 0]; [5; 1; 2; 1]]%Z in
  let lam := LArray (NDArray 1 [[1]; [0]; [3]]%Z) in
  batch_truncated_generalized_advantage_estimation
    (swapaxes r) (swapaxes d) lam (swapaxes v) false true =
  (swapaxes (fst (batch_truncated_generalized_advantage_estimation
                    r d lam v false false)),
   swapaxes (snd (batch_truncated_generalized_advantage_estimation
                    r d lam v false false))).
Proof.
  apply (@gae_layout_invariance Z Z_Scalar false 2 3);
    first [apply has_shape_iff | apply lambda_shape_iff]; reflexivity.
Defined.

Lemma n_step_nonpositive_count_raises_witness :
  batch_n_step_bootstrapped_returns
    (NDArray 4 [[1; 1; 1; 1]]%Z) (NDArray 4 [[1; 1; 1; 1]]%Z)
    (NDArray 4 [[0; 0; 0; 0]]%Z) 0 (LScalar 1%Z) true = Err TypeError.
Proof.
  apply (@n_step_nonpositive_count_raises Z Z_Scalar
           (NDArray 4 [[1; 1; 1; 1]]%Z) (NDArray 4 [[1; 1; 1; 1]]%Z)
           (NDArray 4 [[0; 0; 0; 0]]%Z) 0 (LScalar 1%Z) true).
  lia.
Defined.

Lemma check_total_timesteps_rewrites_one_field_witness :
  TotalTimesteps.check_total_timesteps 2
    (TotalTimesteps.Config
       (TotalTimesteps.ArchConfig (Some 1000%Z) None 4%Z)
       (TotalTimesteps.SystemConfig 8%Z 3%Z)) =
  Ok (TotalTimesteps.Config
        (TotalTimesteps.ArchConfig (Some 1000%Z) (Some 5%Z) 4%Z)
        (TotalTimesteps.SystemConfig 8%Z 3%Z),
      [TotalTimesteps.ChangingNumUpdates 5%Z]).
Proof.
  apply (proj2 (TotalTimestepsFacts.check_total_timesteps_rewrites_one_field
                  2
                  (TotalTimesteps.Config
                     (TotalTimesteps.ArchConfig (Some 1000%Z) None 4%Z)
                     (TotalTimesteps.SystemConfig 8%Z 3%Z)))
           1000%Z eq_refl); cbn; lia.
Defined.


(** * Further properties *)

(** ** Generalized advantage estimation *)

Section GAELayout.
Context {F : Type} {Sc : Scalar F}.

(** The recursion of the advantages in either layout, as the code computes
    it (lambda still multiplied by one). *)
Lemma gae_layout_spec (time_major stop : bool) (B K : nat) (r d v : ndarray F)
  (lam : scalar_or_array F) :
  layout_shape time_major B K r -> layout_shape time_major B K d ->
  layout_shape time_major B (S K) v -> lambda_shape K B lam ->
  let res := batch_truncated_generalized_advantage_estimation
               r d lam v stop time_major in
  layout_shape time_major B K (fst res) /\
  layout_shape time_major B K (snd res) /\
  forall b t, b < B -> t < K ->
    at_time time_major (fst res) b t =
      (at_time time_major r b t
       .+ at_time time_major d b t .* at_time time_major v b (S t)
       .- at_time time_major v b t)
      .+ (at_time time_major d b t .* (one .* lambda_at lam t b))
         .* (if S t <? K then at_time time_major (fst res) b (S t) else zero)
    /\ at_time time_major (snd res) b t =
       at_time time_major v b t .+ at_time time_major (fst res) b t.
Proof.
  destruct time_major; cbn [layout_shape at_time]; intros Hr Hd Hv Hl.
  - destruct (gae_time_major_spec lam stop Hr Hd Hv Hl) as (Ha & Ht & Hget).
    cbv zeta. split; [assumption|]. split; [assumption|].
    intros b t Hb Ht'. now apply Hget.
  - pose proof (layout_shape_swap Hr) as Hr'.
    pose proof (layout_shape_swap Hd) as Hd'.
    pose proof (layout_shape_swap Hv) as Hv'.
    destruct (gae_time_major_spec lam stop Hr' Hd' Hv' Hl) as (Ha & Ht & Hget).
    cbv zeta. rewrite gae_batch_major. cbv zeta. cbn [fst snd].
    set (res := batch_truncated_generalized_advantage_estimation
                  (swapaxes r) (swapaxes d) lam (swapaxes v) stop true) in *.
    split; [now apply layout_shape_swap|].
    split; [now apply layout_shape_swap|].
    pose proof Ha as (Ha0 & Ha1 & _). pose proof Ht as (Ht0 & Ht1 & _).
    pose proof Hr as (Hr0 & Hr1 & _). pose proof Hd as (Hd0 & Hd1 & _).
    pose proof Hv as (Hv0 & Hv1 & _).
    intros b t Hb Ht'. destruct (Hget t b Ht' Hb) as (H1 & H2).
    repeat rewrite get_swapaxes in H1 by lia.
    repeat rewrite get_swapaxes in H2 by lia.
    assert (HS : (if S t <? K then get (swapaxes (fst res)) b (S t) else zero) =
                 (if S t <? K then get (fst res) (S t) b else zero)).
    { destruct (S t <? K) eqn:E; [|reflexivity].
      apply Nat.ltb_lt in E. apply get_swapaxes; lia. }
    rewrite HS. repeat rewrite get_swapaxes by lia.
    split; [exact H1 | exact H2].
Qed.

(** X1.  An advantage and a target value at batch entry [b] and step [t]
    depend only on the data of entry [b] at steps [t] and later: two inputs
    of one shape that agree there give the same advantages and target
    values there, whatever the other entries and the earlier steps hold.
    No law of arithmetic is used. *)
Theorem gae_reads_only_own_future
  (time_major stop : bool) (B K : nat) (r d v r' d' v' : ndarray F)
  (lam lam' : scalar_or_array F) (b t0 : nat) :
  layout_shape time_major B K r -> layout_shape time_major B K d ->
  layout_shape time_major B (S K) v -> lambda_shape K B lam ->
  layout_shape time_major B K r' -> layout_shape time_major B K d' ->
  layout_shape time_major B (S K) v' -> lambda_shape K B lam' ->
  b < B ->
  (forall t, t0 <= t -> t < K ->
     at_time time_major r b t = at_time time_major r' b t /\
     at_time time_major d b t = at_time time_major d' b t /\
     lambda_at lam t b = lambda_at lam' t b) ->
  (forall t, t0 <= t -> t <= K ->
     at_time time_major v b t = at_time time_major v' b t) ->
  let res := batch_truncated_generalized_advantage_estimation
               r d lam v stop time_major in
  let res' := batch_truncated_generalized_advantage_estimation
                r' d' lam' v' stop time_major in
  forall t, t0 <= t -> t < K ->
    at_time time_major (fst res) b t = at_time time_major (fst res') b t /\
    at_time time_major (snd res) b t = at_time time_major (snd res') b t.
Proof.
  intros Hr Hd Hv Hl Hr' Hd' Hv' Hl' Hb Hin Hval res res'.
  destruct (gae_layout_spec time_major stop _ _ _ _ _ lam Hr Hd Hv Hl) as (_ & _ & Hget).
  destruct (gae_layout_spec time_major stop _ _ _ _ _ lam' Hr' Hd' Hv' Hl') as (_ & _ & Hget').
  fold res in Hget. fold res' in Hget'.
  assert (Hadv : forall k t, t + k = K -> t0 <= t -> t < K ->
            at_time time_major (fst res) b t = at_time time_major (fst res') b t).
  { induction k as [|k IH]; intros t Hk Ht0 Ht; [lia|].
    destruct (Hget b t Hb Ht) as (-> & _).
    destruct (Hget' b t Hb Ht) as (-> & _).
    destruct (Hin t Ht0 Ht) as (-> & -> & ->).
    rewrite (Hval t) by lia. rewrite (Hval (S t)) by lia.
    destruct (S t <? K) eqn:E; [|reflexivity].
    apply Nat.ltb_lt in E. rewrite (IH (S t)) by lia. reflexivity. }
  intros t Ht0 Ht. split; [apply (Hadv (K - t)); lia|].
  destruct (Hget b t Hb Ht) as (_ & ->).
  destruct (Hget' b t Hb Ht) as (_ & ->).
  rewrite (Hval t) by lia. rewrite (Hadv (K - t)) by lia. reflexivity.
Qed.
End GAELayout.

Section GAEExactExtras.
Context {F : Type} {Sc : Scalar F} {E : ExactArith F}.
Add Ring gae_extras_ring : exact_ring.

Lemma weighted_sum_step (w delta : nat -> F) t n :
  weighted_sum w delta t (S n) =
  delta t .+ w t .* weighted_sum w delta (S t) n.
Proof.
  induction n as [|n IH].
  - cbn [weighted_sum weight_product]. rewrite Nat.add_0_r. ring.
  - change (weighted_sum w delta t (S (S n)))
      with (weighted_sum w delta t (S n)
            .+ weight_product w t (S n) .* delta (t + S n)).
    rewrite IH. cbn [weighted_sum weight_product].
    replace (t + S n) with (S t + n) by lia. ring.
Qed.

(** X2.  In exact arithmetic the target values are lambda-returns: with
    [G_K = v_K], [G_t = r_t + d_t * ((1 - lambda_t) * v_{t+1} + lambda_t *
    G_{t+1})] at every step of every batch entry, in either layout. *)
Theorem gae_targets_are_lambda_returns
  (time_major stop : bool) (B K : nat) (r d v : ndarray F)
  (lam : scalar_or_array F) :
  layout_shape time_major B K r -> layout_shape time_major B K d ->
  layout_shape time_major B (S K) v -> lambda_shape K B lam ->
  let res := batch_truncated_generalized_advantage_estimation
               r d lam v stop time_major in
  let G b t :=
    if t <? K then at_time time_major (snd res) b t
    else at_time time_major v b K in
  forall b t, b < B -> t < K ->
    G b t =
    at_time time_major r b t
    .+ at_time time_major d b t
       .* ((one .- lambda_at lam t b) .* at_time time_major v b (S t)
           .+ lambda_at lam t b .* G b (S t)).
Proof.
  intros Hr Hd Hv Hl res G b t Hb Ht.
  destruct (gae_layout_spec time_major stop _ _ _ _ _ lam Hr Hd Hv Hl) as (_ & _ & Hget).
  fold res in Hget. subst G. cbv beta.
  replace (t <? K) with true by (symmetry; apply Nat.ltb_lt; lia).
  destruct (Hget b t Hb Ht) as (Ha & ->). rewrite Ha.
  destruct (S t <? K) eqn:Elt.
  - apply Nat.ltb_lt in Elt. destruct (Hget b (S t) Hb Elt) as (_ & ->). ring.
  - apply Nat.ltb_ge in Elt. replace (S t) with K by lia. ring.
Qed.

(** X3.  In exact arithmetic the advantage is the weighted sum of the
    residuals that the docstring gives:
    [A_t = delta_t + w_t * delta_{t+1} + w_t * w_{t+1} * delta_{t+2} + ...]
    up to the last step, with [w_j = d_j * lambda_j] and
    [delta_j = r_j + d_j * v_{j+1} - v_j]. *)
Theorem gae_advantage_is_weighted_sum_of_residuals
  (time_major stop : bool) (B K : nat) (r d v : ndarray F)
  (lam : scalar_or_array F) :
  layout_shape time_major B K r -> layout_shape time_major B K d ->
  layout_shape time_major B (S K) v -> lambda_shape K B lam ->
  forall b t, b < B -> t < K ->
    at_time time_major
      (fst (batch_truncated_generalized_advantage_estimation
              r d lam v stop time_major)) b t =
    weighted_sum
      (fun j => at_time time_major d b j .* lambda_at lam j b)
      (fun j => at_time time_major r b j
                .+ at_time time_major d b j .* at_time time_major v b (S j)
                .- at_time time_major v b j)
      t (K - t).
Proof.
  intros Hr Hd Hv Hl b t Hb Ht.
  destruct (gae_layout_spec time_major stop _ _ _ _ _ lam Hr Hd Hv Hl) as (_ & _ & Hget).
  cbv zeta in Hget.
  remember (K - t) as k eqn:Hk. revert t Ht Hk.
  induction k as [|k IH]; intros t Ht Hk; [lia|].
  rewrite weighted_sum_step. destruct (Hget b t Hb Ht) as (-> & _).
  destruct (S t <? K) eqn:Elt.
  - apply Nat.ltb_lt in Elt. rewrite (IH (S t)) by lia. ring.
  - apply Nat.ltb_ge in Elt. replace k with 0 by lia.
    cbn [weighted_sum]. ring.
Qed.
End GAEExactExtras.

(** ** N-step bootstrapped returns *)

Section NStepExtras.
Context {F : Type} {Sc : Scalar F} {E : ExactArith F}.
Add Ring n_step_extras_ring : exact_ring.

(** X4.  In exact arithmetic, a step count that covers the whole sequence
    makes [batch_n_step_bootstrapped_returns] (called on the values at
    steps 1 to [K + 1]) return the target values of
    [batch_truncated_generalized_advantage_estimation] for the same
    rewards, discounts and lambda: both are the lambda-return. *)
Theorem n_step_full_horizon_is_gae_target
  (stop stop' : bool) (B K : nat) (r d v v1 : ndarray F)
  (lam : scalar_or_array F) (n : Z) :
  has_shape B (S K) r -> has_shape B (S K) d -> has_shape B (S (S K)) v ->
  has_shape B (S K) v1 ->
  (forall b t, b < B -> t < S K -> get v1 b t = get v b (S t)) ->
  lambda_shape (S K) B lam -> (2 <= n)%Z -> (Z.of_nat (S K) <= n)%Z ->
  batch_n_step_bootstrapped_returns r d v1 n lam stop' =
  Ok (snd (batch_truncated_generalized_advantage_estimation
             r d lam v stop false)).
Proof.
  intros Hr Hd Hv Hv1 Hshift Hl Hn2 Hn.
  destruct (n_step_exact_spec stop' lam Hr Hd Hv1 Hl Hn2)
    as (out & -> & Hs & Hout).
  destruct (gae_layout_spec false stop _ _ _ _ _ lam Hr Hd Hv Hl)
    as (_ & Htgt & Hget).
  cbn [layout_shape at_time] in Htgt, Hget.
  set (res := batch_truncated_generalized_advantage_estimation
                r d lam v stop false) in *.
  f_equal. apply (ndarray_ext (m := B) (n := S K)); [assumption..|].
  intros b t Hb Ht. destruct (Hout b t Hb Ht) as (_ & Hend).
  rewrite Hend by lia.
  assert (Hrec : forall k j, j + k = S K ->
            n_step_unrolled (get r b) (get d b)
              (fun i => lambda_at lam i b) (get v1 b) k j =
            if j <? S K then get (snd res) b j else get v b (S K)).
  { induction k as [|k IH]; intros j Hj; cbn [n_step_unrolled].
    - replace (j <? S K) with false by (symmetry; apply Nat.ltb_ge; lia).
      replace (j - 1) with K by lia. rewrite Hshift by lia. reflexivity.
    - assert (Hj' : j < S K) by lia.
      replace (j <? S K) with true by (symmetry; apply Nat.ltb_lt; lia).
      rewrite (IH (1 + j)) by lia. rewrite Hshift by lia.
      destruct (Hget b j Hb Hj') as (Ha & ->). rewrite Ha.
      cbn [Nat.add].
      destruct (S j <? S K) eqn:Elt.
      + apply Nat.ltb_lt in Elt. destruct (Hget b (S j) Hb Elt) as (_ & ->).
        ring.
      + apply Nat.ltb_ge in Elt. replace (S j) with (S K) by lia. ring. }
  rewrite (Hrec (S K - t) t) by lia.
  now replace (t <? S K) with true by (symmetry; apply Nat.ltb_lt; lia).
Qed.

(** X5.  In exact arithmetic the result does not change once the step
    count covers the sequence: every two counts of at least two and at
    least the sequence length give the same returns. *)
Theorem n_step_count_beyond_horizon_is_irrelevant
  (stop : bool) (B T : nat) (r d v : ndarray F) (lam : scalar_or_array F)
  (n n' : Z) :
  has_shape B (S T) r -> has_shape B (S T) d -> has_shape B (S T) v ->
  lambda_shape (S T) B lam ->
  (2 <= n)%Z -> (Z.of_nat (S T) <= n)%Z ->
  (2 <= n')%Z -> (Z.of_nat (S T) <= n')%Z ->
  batch_n_step_bootstrapped_returns r d v n lam stop =
  batch_n_step_bootstrapped_returns r d v n' lam stop.
Proof.
  intros Hr Hd Hv Hl Hn2 Hn Hn2' Hn'.
  destruct (n_step_exact_spec stop lam Hr Hd Hv Hl Hn2)
    as (out & -> & Hs & Hout).
  destruct (n_step_exact_spec stop lam Hr Hd Hv Hl Hn2')
    as (out' & -> & Hs' & Hout').
  f_equal. apply (ndarray_ext (m := B) (n := S T)); [assumption..|].
  intros b t Hb Ht.
  destruct (Hout b t Hb Ht) as (_ & Hend).
  destruct (Hout' b t Hb Ht) as (_ & Hend').
  rewrite Hend, Hend' by lia. reflexivity.
Qed.

(** X6.  In exact arithmetic, with lambda = 0 every step count of at least
    two gives the one-step bootstrap [G_t = r_t + d_t * v_t] (array
    positions: the reward, discount and value of the transition out of
    step [t]). *)
Theorem n_step_lambda_zero_is_one_step_bootstrap
  (stop : bool) (B T : nat) (r d v : ndarray F) (n : Z) :
  has_shape B (S T) r -> has_shape B (S T) d -> has_shape B (S T) v ->
  (2 <= n)%Z ->
  exists out,
    batch_n_step_bootstrapped_returns r d v n (LScalar zero) stop = Ok out /\
    has_shape B (S T) out /\
    forall b t, b < B -> t < S T ->
      get out b t = get r b t .+ get d b t .* get v b t.
Proof.
  intros Hr Hd Hv Hn.
  destruct (n_step_exact_spec stop (LScalar zero) Hr Hd Hv I Hn)
    as (out & Hout & Hs & Hget).
  exists out. split; [assumption|]. split; [assumption|].
  intros b t Hb Ht. destruct (Hget b t Hb Ht) as (-> & _).
  replace (Z.to_nat n) with (S (Z.to_nat n - 1)) by lia.
  cbn [n_step_unrolled lambda_at]. unfold padded.
  replace (t <? S T) with true by (symmetry; apply Nat.ltb_lt; lia).
  ring.
Qed.

(** X7.  In exact arithmetic the returns for [n + 1] steps are one backup
    of the returns for [n] steps at the next position:
    [G(n+1)_t = r_t + d_t * ((1 - lambda_t) * v_t + lambda_t * G(n)_{t+1})]
    wherever [t + 1] is inside the sequence. *)
Theorem n_step_one_more_step_is_one_backup
  (stop : bool) (B T : nat) (r d v : ndarray F) (lam : scalar_or_array F)
  (n : Z) :
  has_shape B (S T) r -> has_shape B (S T) d -> has_shape B (S T) v ->
  lambda_shape (S T) B lam -> (2 <= n)%Z ->
  exists out out',
    batch_n_step_bootstrapped_returns r d v n lam stop = Ok out /\
    batch_n_step_bootstrapped_returns r d v (n + 1) lam stop = Ok out' /\
    forall b t, b < B -> S t < S T ->
      get out' b t =
      get r b t
      .+ get d b t
         .* ((one .- lambda_at lam t b) .* get v b t
             .+ lambda_at lam t b .* get out b (S t)).
Proof.
  intros Hr Hd Hv Hl Hn.
  destruct (n_step_exact_spec stop lam Hr Hd Hv Hl Hn)
    as (out & Hout & Hs & Hget).
  assert (Hn' : (2 <= n + 1)%Z) by lia.
  destruct (n_step_exact_spec stop lam Hr Hd Hv Hl Hn')
    as (out' & Hout' & Hs' & Hget').
  exists out, out'. split; [assumption|]. split; [assumption|].
  intros b t Hb Ht.
  assert (Ht' : t < S T) by lia.
  destruct (Hget' b t Hb Ht') as (-> & _).
  destruct (Hget b (S t) Hb Ht) as (-> & _).
  replace (Z.to_nat (n + 1)) with (S (Z.to_nat n)) by lia.
  cbn [n_step_unrolled]. unfold padded.
  replace (t <? S T) with true by (symmetry; apply Nat.ltb_lt; lia).
  reflexivity.
Qed.
End NStepExtras.

(** ** Generalized off-policy returns and retrace *)

Section OffPolicyExtras.
Context {F : Type} {Sc : Scalar F}.

Lemma index_last_swapaxes (a : ndarray F) :
  index_last (swapaxes a) =
  if shape1 a =? 0 then Err IndexError
  else Ok (last (rows (swapaxes a)) []).
Proof. unfold index_last, swapaxes. cbn [rows]. now destruct (shape1 a). Qed.

(** The function fails exactly on an empty time axis of [r], [d] or [v]. *)
Lemma off_policy_empty_axis (q v r d c : ndarray F) (stop : bool) :
  shape1 r = 0 \/ shape1 d = 0 \/ shape1 v = 0 ->
  batch_general_off_policy_returns_from_q_and_v q v r d c stop =
  Err IndexError.
Proof.
  intros H. unfold batch_general_off_policy_returns_from_q_and_v.
  rewrite !index_last_swapaxes.
  destruct (shape1 r) as [|kr]; [reflexivity|].
  destruct (shape1 d) as [|kd]; [reflexivity|].
  destruct (shape1 v) as [|kv]; [reflexivity|].
  destruct H as [H|[H|H]]; discriminate.
Qed.

Context {Tr : Transcendental F}.

(** The retrace error in terms of the generalized return. *)
Lemma retrace_spec (stop : bool) (B K : nat)
  (q_tm1 q_t v r d log_rhos : ndarray F) (lam : scalar_or_array F) :
  has_shape B (S K) q_tm1 -> has_shape B K q_t -> has_shape B (S K) v ->
  has_shape B (S K) r -> has_shape B (S K) d -> has_shape B K log_rhos ->
  lambda_shape B K lam ->
  exists g out,
    batch_general_off_policy_returns_from_q_and_v q_t v r d
      (mul_broadcast (arr_map (fun x => minimum one (exp x)) log_rhos) lam)
      false = Ok g /\
    has_shape B (S K) g /\
    batch_retrace_continuous q_tm1 q_t v r d log_rhos lam stop = Ok out /\
    has_shape B (S K) out /\
    forall b t, b < B -> t < S K -> get out b t = get g b t .- get q_tm1 b t.
Proof.
  intros Hq1 Hq Hv Hr Hd Hrho _.
  set (c := mul_broadcast
              (arr_map (fun x => minimum one (exp x)) log_rhos) lam).
  assert (Hc : has_shape B K c)
    by (apply mul_broadcast_shape; auto using arr_map_shape).
  destruct (off_policy_spec false Hq Hv Hr Hd Hc) as (g & Hg & Hgs & _).
  exists g, (arr_sub g q_tm1). split; [assumption|]. split; [assumption|].
  split.
  { unfold batch_retrace_continuous. fold c. rewrite Hg. cbn [bind].
    now rewrite lax_select_stop_gradient. }
  split; [now apply arr_zip_shape|].
  intros b t Hb Ht. unfold arr_sub.
  now rewrite (get_arr_zip (m := B) (n := S K)).
Qed.

(** X8.  An empty time axis of the rewards, the discounts or the values
    makes [batch_general_off_policy_returns_from_q_and_v] raise IndexError
    (from [r_t[-1]], [discount_t[-1]] or [v_t[-1]]), whatever the other
    arguments are, and [batch_retrace_continuous] (lambda a scalar or an
    array that broadcasts to the shape of the log-ratios) passes the error
    on. *)
Theorem off_policy_and_retrace_raise_on_empty_time_axis
  (q_tm1 q v r d c log_rhos : ndarray F) (lam : scalar_or_array F)
  (stop : bool) :
  shape1 r = 0 \/ shape1 d = 0 \/ shape1 v = 0 ->
  lambda_shape (shape0 log_rhos) (shape1 log_rhos) lam ->
  batch_general_off_policy_returns_from_q_and_v q v r d c stop =
    Err IndexError /\
  batch_retrace_continuous q_tm1 q v r d log_rhos lam stop = Err IndexError.
Proof.
  intros H _. split; [now apply off_policy_empty_axis|].
  unfold batch_retrace_continuous. now rewrite off_policy_empty_axis.
Qed.

(** X9.  The retrace error at the last step is
    [r_K + d_K * v_K - q_tm1_K] whatever the Q-values [q_t], the log-ratios
    and lambda are, as the comment in the source says of the generalized
    returns.  No law of arithmetic is used. *)
Theorem retrace_last_error_ignores_q_and_weights
  (stop stop' : bool) (B K : nat)
  (q_tm1 q_t q_t' v r d log_rhos log_rhos' : ndarray F)
  (lam lam' : scalar_or_array F) :
  has_shape B (S K) q_tm1 -> has_shape B (S K) v ->
  has_shape B (S K) r -> has_shape B (S K) d ->
  has_shape B K q_t -> has_shape B K log_rhos -> lambda_shape B K lam ->
  has_shape B K q_t' -> has_shape B K log_rhos' -> lambda_shape B K lam' ->
  exists out out',
    batch_retrace_continuous q_tm1 q_t v r d log_rhos lam stop = Ok out /\
    batch_retrace_continuous q_tm1 q_t' v r d log_rhos' lam' stop' = Ok out' /\
    forall b, b < B ->
      get out b K = get r b K .+ get d b K .* get v b K .- get q_tm1 b K /\
      get out' b K = get out b K.
Proof.
  intros Hq1 Hv Hr Hd Hq Hrho Hl Hq' Hrho' Hl'.
  destruct (retrace_spec stop lam Hq1 Hq Hv Hr Hd Hrho Hl)
    as (g & out & Hg & _ & Hout & _ & Hget).
  destruct (retrace_spec stop' lam' Hq1 Hq' Hv Hr Hd Hrho' Hl')
    as (g' & out' & Hg' & _ & Hout' & _ & Hget').
  exists out, out'. split; [assumption|]. split; [assumption|].
  intros b Hb.
  assert (Hc : forall l rho, has_shape B K rho ->
            has_shape B K
              (mul_broadcast (arr_map (fun x => minimum one (exp x)) rho) l))
    by (intros; apply mul_broadcast_shape; auto using arr_map_shape).
  destruct (off_policy_spec false Hq Hv Hr Hd (Hc lam _ Hrho))
    as (g1 & Hg1 & _ & Hlast).
  destruct (off_policy_spec false Hq' Hv Hr Hd (Hc lam' _ Hrho'))
    as (g2 & Hg2 & _ & Hlast').
  rewrite Hg in Hg1. injection Hg1 as <-.
  rewrite Hg' in Hg2. injection Hg2 as <-.
  destruct (Hlast b Hb) as (Hk & _). destruct (Hlast' b Hb) as (Hk' & _).
  rewrite (Hget' b K), (Hget b K) by lia. rewrite Hk, Hk'. split; reflexivity.
Qed.
End OffPolicyExtras.

Section OffPolicyExactExtras.
Context {F : Type} {Sc : Scalar F} {E : ExactArith F}.
Add Ring off_policy_extras_ring : exact_ring.

(** X10.  In exact arithmetic, zero mixing weights leave the one-step
    bootstrap [g_t = r_t + d_t * v_t] at every step, whatever the
    Q-values are. *)
Theorem off_policy_zero_weights_is_one_step_bootstrap
  (stop : bool) (B K : nat) (q v r d c : ndarray F) :
  has_shape B K q -> has_shape B (S K) v -> has_shape B (S K) r ->
  has_shape B (S K) d -> has_shape B K c ->
  (forall b t, b < B -> t < K -> get c b t = zero) ->
  exists g,
    batch_general_off_policy_returns_from_q_and_v q v r d c stop = Ok g /\
    forall b t, b < B -> t < S K ->
      get g b t = get r b t .+ get d b t .* get v b t.
Proof.
  intros Hq Hv Hr Hd Hc Hzero.
  destruct (off_policy_spec stop Hq Hv Hr Hd Hc) as (g & Hg & _ & Hget).
  exists g. split; [assumption|]. intros b t Hb Ht.
  destruct (Hget b Hb) as (Hlast & Hstep).
  destruct (Nat.eq_dec t K) as [->|Hne]; [assumption|].
  rewrite Hstep by lia. rewrite Hzero by lia. ring.
Qed.

(** X11.  In exact arithmetic, when the Q-values are the state values
    ([q_t = v_t] at the steps before the last) the generalized return is
    the lambda-return with the mixing weight for lambda:
    [g_t = r_t + d_t * ((1 - c_t) * v_t + c_t * g_{t+1})]; with unit
    weights it is the plain backup [g_t = r_t + d_t * g_{t+1}]. *)
Theorem off_policy_with_state_values_is_lambda_return
  (stop : bool) (B K : nat) (q v r d c : ndarray F) :
  has_shape B K q -> has_shape B (S K) v -> has_shape B (S K) r ->
  has_shape B (S K) d -> has_shape B K c ->
  (forall b t, b < B -> t < K -> get q b t = get v b t) ->
  exists g,
    batch_general_off_policy_returns_from_q_and_v q v r d c stop = Ok g /\
    forall b t, b < B -> t < K ->
      get g b t =
        get r b t
        .+ get d b t
           .* ((one .- get c b t) .* get v b t .+ get c b t .* get g b (S t))
      /\ (get c b t = one ->
          get g b t = get r b t .+ get d b t .* get g b (S t)).
Proof.
  intros Hq Hv Hr Hd Hc Hqv.
  destruct (off_policy_spec stop Hq Hv Hr Hd Hc) as (g & Hg & _ & Hget).
  exists g. split; [assumption|]. intros b t Hb Ht.
  destruct (Hget b Hb) as (_ & Hstep).
  rewrite Hstep by lia. rewrite Hqv by lia. split; [ring|].
  intros ->. ring.
Qed.

(** X12.  In exact arithmetic, with the Q-values equal to the state values
    and the mixing weights equal to lambda, the generalized off-policy
    return is the target value of
    [batch_truncated_generalized_advantage_estimation] for the same
    rewards and discounts and the values preceded by one more step. *)
Theorem off_policy_with_state_values_is_gae_target
  (stop stop' : bool) (B K : nat) (q v r d c values : ndarray F)
  (lam : scalar_or_array F) :
  has_shape B K q -> has_shape B (S K) v -> has_shape B (S K) r ->
  has_shape B (S K) d -> has_shape B K c ->
  has_shape B (S (S K)) values -> lambda_shape (S K) B lam ->
  (forall b t, b < B -> t < K -> get q b t = get v b t) ->
  (forall b t, b < B -> t < K -> lambda_at lam t b = get c b t) ->
  (forall b t, b < B -> t < S K -> get values b (S t) = get v b t) ->
  batch_general_off_policy_returns_from_q_and_v q v r d c stop =
  Ok (snd (batch_truncated_generalized_advantage_estimation
             r d lam values stop' false)).
Proof.
  intros Hq Hv Hr Hd Hc Hvals Hl Hqv Hlam Hshift.
  destruct (off_policy_spec stop Hq Hv Hr Hd Hc) as (g & -> & Hs & Hget).
  destruct (gae_layout_spec false stop' _ _ _ _ _ lam Hr Hd Hvals Hl)
    as (_ & Htgt & Hgae).
  cbn [layout_shape at_time] in Htgt, Hgae.
  set (res := batch_truncated_generalized_advantage_estimation
                r d lam values stop' false) in *.
  f_equal. apply (ndarray_ext (m := B) (n := S K)); [assumption..|].
  intros b t Hb Ht.
  assert (Hrec : forall k j, j + k = K -> get g b j = get (snd res) b j).
  { destruct (Hget b Hb) as (Hlast & Hstep).
    induction k as [|k IH]; intros j Hj.
    - replace j with K by lia. rewrite Hlast.
      assert (HK : K < S K) by lia.
      destruct (Hgae b K Hb HK) as (Ha & ->). rewrite Ha.
      replace (S K <? S K) with false by (symmetry; apply Nat.ltb_ge; lia).
      rewrite (Hshift b K) by lia. ring.
    - assert (Hj' : j < S K) by lia.
      rewrite Hstep by lia. rewrite (IH (S j)) by lia.
      destruct (Hgae b j Hb Hj') as (Ha & ->). rewrite Ha.
      replace (S j <? S K) with true by (symmetry; apply Nat.ltb_lt; lia).
      assert (HSj : S j < S K) by lia.
      destruct (Hgae b (S j) Hb HSj) as (_ & ->).
      rewrite Hqv, (Hshift b j), Hlam by lia. ring. }
  apply (Hrec (K - t)). lia.
Qed.

Context {Tr : Transcendental F}.

(** X13.  In exact arithmetic, lambda = 0 turns the retrace error into the
    one-step error [r_t + d_t * v_t - q_tm1_t] at every step, whatever the
    log-ratios and the Q-values [q_t] are. *)
Theorem retrace_lambda_zero_is_one_step_error
  (stop : bool) (B K : nat) (q_tm1 q_t v r d log_rhos : ndarray F) :
  has_shape B (S K) q_tm1 -> has_shape B K q_t -> has_shape B (S K) v ->
  has_shape B (S K) r -> has_shape B (S K) d -> has_shape B K log_rhos ->
  exists out,
    batch_retrace_continuous q_tm1 q_t v r d log_rhos (LScalar zero) stop =
      Ok out /\
    forall b t, b < B -> t < S K ->
      get out b t = get r b t .+ get d b t .* get v b t .- get q_tm1 b t.
Proof.
  intros Hq1 Hq Hv Hr Hd Hrho.
  destruct (retrace_spec stop (LScalar zero) Hq1 Hq Hv Hr Hd Hrho I)
    as (g & out & Hg & _ & Hout & _ & Hget).
  exists out. split; [assumption|]. intros b t Hb Ht.
  rewrite Hget by assumption. f_equal.
  set (c := mul_broadcast
              (arr_map (fun x => minimum one (exp x)) log_rhos)
              (LScalar zero)) in *.
  assert (Hc : has_shape B K c)
    by (apply mul_broadcast_shape; auto using arr_map_shape).
  destruct (off_policy_spec false Hq Hv Hr Hd Hc) as (g1 & Hg1 & _ & Hrec).
  rewrite Hg in Hg1. injection Hg1 as <-.
  destruct (Hrec b Hb) as (Hlast & Hstep).
  destruct (Nat.eq_dec t K) as [->|Hne]; [assumption|].
  rewrite Hstep by lia.
  assert (Hzero : get c b t = zero).
  { subst c.
    rewrite (get_mul_broadcast (m := B) (n := K)); auto using arr_map_shape;
      [|lia].
    cbn [lambda_at]. ring. }
  rewrite Hzero. ring.
Qed.
End OffPolicyExactExtras.

(** ** What a result depends on *)

Section Locality.
Context {F : Type} {Sc : Scalar F}.

(** X14.  A generalized off-policy return at batch entry [b] and step [t]
    depends only on the data of entry [b] at steps [t] and later: two
    inputs of one shape that agree there give the same returns there.  No
    law of arithmetic is used. *)
Theorem off_policy_reads_only_own_future
  (stop : bool) (B K : nat) (q v r d c q' v' r' d' c' : ndarray F)
  (b t0 : nat) :
  has_shape B K q -> has_shape B (S K) v -> has_shape B (S K) r ->
  has_shape B (S K) d -> has_shape B K c ->
  has_shape B K q' -> has_shape B (S K) v' -> has_shape B (S K) r' ->
  has_shape B (S K) d' -> has_shape B K c' ->
  b < B ->
  (forall t, t0 <= t -> t <= K ->
     get r b t = get r' b t /\ get d b t = get d' b t /\
     get v b t = get v' b t) ->
  (forall t, t0 <= t -> t < K ->
     get q b t = get q' b t /\ get c b t = get c' b t) ->
  exists g g',
    batch_general_off_policy_returns_from_q_and_v q v r d c stop = Ok g /\
    batch_general_off_policy_returns_from_q_and_v q' v' r' d' c' stop = Ok g' /\
    forall t, t0 <= t -> t <= K -> get g b t = get g' b t.
Proof.
  intros Hq Hv Hr Hd Hc Hq' Hv' Hr' Hd' Hc' Hb Hrdv Hqc.
  destruct (off_policy_spec stop Hq Hv Hr Hd Hc) as (g & Hg & _ & Hget).
  destruct (off_policy_spec stop Hq' Hv' Hr' Hd' Hc') as (g' & Hg' & _ & Hget').
  exists g, g'. split; [assumption|]. split; [assumption|].
  destruct (Hget b Hb) as (Hlast & Hstep).
  destruct (Hget' b Hb) as (Hlast' & Hstep').
  assert (Hrec : forall k t, t + k = K -> t0 <= t -> get g b t = get g' b t).
  { induction k as [|k IH]; intros t Hk Ht0.
    - replace t with K by lia. rewrite Hlast, Hlast'.
      destruct (Hrdv K) as (-> & -> & ->); [lia..|]. reflexivity.
    - rewrite Hstep, Hstep' by lia.
      destruct (Hrdv t) as (-> & -> & ->); [lia..|].
      destruct (Hqc t) as (-> & ->); [lia..|].
      rewrite (IH (S t)) by lia. reflexivity. }
  intros t Ht0 Ht. apply (Hrec (K - t)); lia.
Qed.

Lemma n_step_unrolled_window (r d l v r' d' l' v' : nat -> F) k i :
  1 <= i + k ->
  (forall j, i <= j -> j < i + k ->
     r j = r' j /\ d j = d' j /\ l j = l' j /\ v j = v' j) ->
  v (i + k - 1) = v' (i + k - 1) ->
  n_step_unrolled r d l v k i = n_step_unrolled r' d' l' v' k i.
Proof.
  revert i. induction k as [|k IH]; intros i Hi Hwin Hbase;
    cbn [n_step_unrolled].
  - now rewrite Nat.add_0_r in Hbase.
  - destruct (Hwin i) as (-> & -> & -> & ->); [lia..|].
    rewrite (IH (1 + i)); [reflexivity | lia | |].
    + intros j Hj1 Hj2. apply Hwin; lia.
    + now replace (1 + i + k - 1) with (i + S k - 1) by lia.
Qed.

(** X15.  An n-step return at batch entry [b] and step [t] looks [n]
    steps ahead and no further: two inputs of one shape that agree on
    entry [b] at the steps [t] to [t + n - 1] inside the sequence, and on
    the last value, give the same return there.  No law of arithmetic is
    used. *)
Theorem n_step_reads_only_its_window
  (stop : bool) (B T : nat) (r d v r' d' v' : ndarray F)
  (lam lam' : scalar_or_array F) (n : Z) (b t : nat) :
  has_shape B (S T) r -> has_shape B (S T) d -> has_shape B (S T) v ->
  lambda_shape (S T) B lam ->
  has_shape B (S T) r' -> has_shape B (S T) d' -> has_shape B (S T) v' ->
  lambda_shape (S T) B lam' ->
  (2 <= n)%Z -> b < B -> t < S T ->
  (forall j, t <= j -> j < t + Z.to_nat n -> j < S T ->
     get r b j = get r' b j /\ get d b j = get d' b j /\
     lambda_at lam j b = lambda_at lam' j b /\ get v b j = get v' b j) ->
  get v b T = get v' b T ->
  exists out out',
    batch_n_step_bootstrapped_returns r d v n lam stop = Ok out /\
    batch_n_step_bootstrapped_returns r' d' v' n lam' stop = Ok out' /\
    get out b t = get out' b t.
Proof.
  intros Hr Hd Hv Hl Hr' Hd' Hv' Hl' Hn Hb Ht Hwin Hlast.
  destruct (n_step_spec stop lam Hr Hd Hv Hl Hn) as (out & Hout & _ & Hget).
  destruct (n_step_spec stop lam' Hr' Hd' Hv' Hl' Hn)
    as (out' & Hout' & _ & Hget').
  exists out, out'. split; [assumption|]. split; [assumption|].
  rewrite Hget, Hget' by assumption.
  assert (Hpad : forall j, t <= j -> j < t + Z.to_nat n ->
    padded (S T) (fun i => get r b i) zero j =
      padded (S T) (fun i => get r' b i) zero j /\
    padded (S T) (fun i => get d b i) one j =
      padded (S T) (fun i => get d' b i) one j /\
    padded (S T) (fun i => one .* lambda_at lam i b) one j =
      padded (S T) (fun i => one .* lambda_at lam' i b) one j /\
    padded (S T) (fun i => get v b i) (get v b T) j =
      padded (S T) (fun i => get v' b i) (get v' b T) j).
  { intros j Hj1 Hj2. unfold padded. destruct (j <? S T) eqn:Elt.
    - apply Nat.ltb_lt in Elt.
      destruct (Hwin j Hj1 Hj2 Elt) as (-> & -> & -> & ->). auto.
    - rewrite Hlast. auto. }
  apply n_step_unrolled_window; [lia | exact Hpad |].
  apply Hpad; lia.
Qed.

(** X16.  When the values have an empty time axis,
    [batch_n_step_bootstrapped_returns] raises IndexError (from
    [v_t[-1]]) for every step count, lambda being a scalar or an array
    that broadcasts to the time-major shape of the discounts. *)
Theorem n_step_raises_on_empty_time_axis
  (r d v : ndarray F) (n : Z) (lam : scalar_or_array F) (stop : bool) :
  shape1 v = 0 ->
  lambda_shape (shape1 d) (shape0 d) lam ->
  batch_n_step_bootstrapped_returns r d v n lam stop = Err IndexError.
Proof.
  intros H _. unfold batch_n_step_bootstrapped_returns.
  rewrite index_last_swapaxes, H. reflexivity.
Qed.
End Locality.

(** ** Episode boundaries *)

Section ZeroDiscount.
Context {F : Type} {Sc : Scalar F} {E : ExactArith F}.
Add Ring zero_discount_ring : exact_ring.

(** X17.  In exact arithmetic a zero discount at a step stops the
    bootstrap there: the advantage is [r_t - v_t] and the target value is
    [r_t], whatever follows the step. *)
Theorem gae_zero_discount_stops_bootstrap
  (time_major stop : bool) (B K : nat) (r d v : ndarray F)
  (lam : scalar_or_array F) (b t : nat) :
  layout_shape time_major B K r -> layout_shape time_major B K d ->
  layout_shape time_major B (S K) v -> lambda_shape K B lam ->
  b < B -> t < K -> at_time time_major d b t = zero ->
  let res := batch_truncated_generalized_advantage_estimation
               r d lam v stop time_major in
  at_time time_major (fst res) b t =
    at_time time_major r b t .- at_time time_major v b t /\
  at_time time_major (snd res) b t = at_time time_major r b t.
Proof.
  intros Hr Hd Hv Hl Hb Ht Hzero res.
  destruct (gae_layout_spec time_major stop _ _ _ _ _ lam Hr Hd Hv Hl)
    as (_ & _ & Hget).
  fold res in Hget. destruct (Hget b t Hb Ht) as (Ha & ->).
  rewrite Ha, Hzero. split; ring.
Qed.

(** X18.  In exact arithmetic a zero discount at a step makes the
    generalized off-policy return of that step the reward alone, and so
    the n-step return (for a step count of at least two). *)
Theorem zero_discount_return_is_the_reward
  (stop : bool) (B K : nat) (q v r d c v1 : ndarray F)
  (lam : scalar_or_array F) (n : Z) (b t : nat) :
  has_shape B K q -> has_shape B (S K) v -> has_shape B (S K) r ->
  has_shape B (S K) d -> has_shape B K c ->
  has_shape B (S K) v1 -> lambda_shape (S K) B lam -> (2 <= n)%Z ->
  b < B -> t < S K -> get d b t = zero ->
  exists g out,
    batch_general_off_policy_returns_from_q_and_v q v r d c stop = Ok g /\
    batch_n_step_bootstrapped_returns r d v1 n lam stop = Ok out /\
    get g b t = get r b t /\ get out b t = get r b t.
Proof.
  intros Hq Hv Hr Hd Hc Hv1 Hl Hn Hb Ht Hzero.
  destruct (off_policy_spec stop Hq Hv Hr Hd Hc) as (g & Hg & _ & Hget).
  destruct (n_step_exact_spec stop lam Hr Hd Hv1 Hl Hn)
    as (out & Hout & _ & Hnget).
  exists g, out. split; [assumption|]. split; [assumption|]. split.
  - destruct (Hget b Hb) as (Hlast & Hstep).
    destruct (Nat.eq_dec t K) as [->|Hne].
    + rewrite Hlast, Hzero. ring.
    + rewrite Hstep by lia. rewrite Hzero. ring.
  - destruct (Hnget b t Hb Ht) as (-> & _).
    replace (Z.to_nat n) with (S (Z.to_nat n - 1)) by lia.
    cbn [n_step_unrolled]. unfold padded.
    replace (t <? S K) with true by (symmetry; apply Nat.ltb_lt; lia).
    rewrite Hzero. ring.
Qed.
End ZeroDiscount.

(** ** Retrace weights over the real numbers *)

Section RetraceReal.
#[local] Open Scope R_scope.

Lemma clipped_ratio_bounds (x : R) :
  0 < Rmin 1 (Rtrigo_def.exp x) <= 1 /\
  (0 <= x -> Rmin 1 (Rtrigo_def.exp x) = 1).
Proof.
  pose proof (exp_pos x) as Hpos. split; [split|].
  - apply Rmin_glb_lt; lra.
  - apply Rmin_l.
  - intros Hx. apply Rmin_left.
    destruct (Req_dec x 0) as [->|Hne]; [rewrite exp_0; lra|].
    assert (0 < x) by lra. pose proof (exp_ineq1 x). lra.
Qed.

(** X19.  Over the real numbers, with a scalar lambda >= 0 the mixing
    weights that [batch_retrace_continuous] passes to
    [batch_general_off_policy_returns_from_q_and_v] lie between 0 and
    lambda, and equal lambda wherever the log-ratio is non-negative (the
    importance ratio is clipped at 1). *)
Theorem retrace_weights_are_clipped
  (stop : bool) (B K : nat) (q_tm1 q_t v r d log_rhos : ndarray R)
  (lambda : R) :
  has_shape B (S K) q_tm1 -> has_shape B K q_t -> has_shape B (S K) v ->
  has_shape B (S K) r -> has_shape B (S K) d -> has_shape B K log_rhos ->
  0 <= lambda ->
  exists c g out,
    batch_general_off_policy_returns_from_q_and_v q_t v r d c false = Ok g /\
    batch_retrace_continuous q_tm1 q_t v r d log_rhos (LScalar lambda) stop =
      Ok out /\
    (forall b t, (b < B)%nat -> (t < S K)%nat ->
       get out b t = get g b t - get q_tm1 b t) /\
    forall b t, (b < B)%nat -> (t < K)%nat ->
      0 <= get c b t <= lambda /\
      (0 <= get log_rhos b t -> get c b t = lambda).
Proof.
  intros Hq1 Hq Hv Hr Hd Hrho Hlam.
  destruct (retrace_spec stop (LScalar lambda) Hq1 Hq Hv Hr Hd Hrho I)
    as (g & out & Hg & _ & Hout & _ & Hget).
  eexists _, g, out. split; [exact Hg|]. split; [exact Hout|].
  split; [exact Hget|].
  intros b t Hb Ht.
  rewrite (get_mul_broadcast (m := B) (n := K)); auto using arr_map_shape.
  rewrite (get_arr_map (m := B) (n := K)) by assumption.
  cbn [lambda_at mul minimum exp R_Scalar R_Transcendental one].
  destruct (clipped_ratio_bounds (get log_rhos b t)) as ((H0 & H1) & Hclip).
  split; [split; nra|]. intros Hx. rewrite (Hclip Hx). lra.
Qed.
End RetraceReal.

(** ** The total-timestep helper *)

Module TotalTimestepsExtras.
Import TotalTimesteps.
#[local] Open Scope Z_scope.

(** X20.  [check_total_timesteps] raises exactly in two situations:
    TypeError when neither [arch.total_timesteps] nor [arch.num_updates]
    is set, and ZeroDivisionError when [arch.total_timesteps] is set and
    one of [rollout_length], [update_batch_size], [num_envs] or the number
    of devices is zero; in every other case it returns a configuration. *)
Theorem check_total_timesteps_errors (n_devices : Z) (c : config) :
  (check_total_timesteps n_devices c = Err TypeError <->
   total_timesteps (arch c) = None /\ num_updates (arch c) = None) /\
  (check_total_timesteps n_devices c = Err ZeroDivisionError <->
   total_timesteps (arch c) <> None /\
   (rollout_length (system c) = 0 \/ update_batch_size (system c) = 0 \/
    num_envs (arch c) = 0 \/ n_devices = 0)) /\
  (check_total_timesteps n_devices c <> Err IndexError).
Proof.
  unfold check_total_timesteps, floordiv.
  destruct (total_timesteps (arch c)) as [total|];
    [|destruct (num_updates (arch c)) as [updates|]].
  - destruct (Z.eqb_spec (rollout_length (system c)) 0) as [H1|H1];
      cbn [bind]; [intuition (discriminate || congruence)|].
    destruct (Z.eqb_spec (update_batch_size (system c)) 0) as [H2|H2];
      cbn [bind]; [intuition (discriminate || congruence)|].
    destruct (Z.eqb_spec (num_envs (arch c)) 0) as [H3|H3];
      cbn [bind]; [intuition (discriminate || congruence)|].
    destruct (Z.eqb_spec n_devices 0) as [H4|H4];
      cbn [bind]; intuition (discriminate || congruence).
  - intuition (discriminate || congruence).
  - intuition (discriminate || congruence).
Qed.

Lemma product_floordiv (n u r b e : Z) :
  r <> 0 -> b <> 0 -> e <> 0 -> n <> 0 ->
  n * u * r * b * e / r / b / e / n = u.
Proof.
  intros Hr Hb He Hn.
  replace (n * u * r * b * e) with (n * u * b * e * r) by ring.
  rewrite Z.div_mul by assumption.
  replace (n * u * b * e) with (n * u * e * b) by ring.
  rewrite Z.div_mul by assumption.
  rewrite Z.div_mul by assumption.
  replace (n * u) with (u * n) by ring.
  now rewrite Z.div_mul.
Qed.

(** X21.  The configuration that [check_total_timesteps] returns is a
    fixed point: with non-zero [rollout_length], [update_batch_size],
    [num_envs] and device count, a second call returns the same
    configuration; in particular the total derived from [num_updates]
    gives back the same [num_updates]. *)
Theorem check_total_timesteps_is_stable (n_devices : Z) (c c1 : config)
  (out : list message) :
  rollout_length (system c) <> 0 -> update_batch_size (system c) <> 0 ->
  num_envs (arch c) <> 0 -> n_devices <> 0 ->
  check_total_timesteps n_devices c = Ok (c1, out) ->
  exists out', check_total_timesteps n_devices c1 = Ok (c1, out').
Proof.
  intros H1 H2 H3 H4. unfold check_total_timesteps at 1, floordiv.
  apply Z.eqb_neq in H1 as E1. apply Z.eqb_neq in H2 as E2.
  apply Z.eqb_neq in H3 as E3. apply Z.eqb_neq in H4 as E4.
  destruct (total_timesteps (arch c)) as [total|] eqn:Et;
    [|destruct (num_updates (arch c)) as [updates|] eqn:Eu].
  - rewrite E1. cbn [bind]. rewrite E2. cbn [bind]. rewrite E3. cbn [bind].
    rewrite E4. cbn [bind]. intros [= <- <-].
    eexists. unfold check_total_timesteps, floordiv.
    cbn [arch system total_timesteps num_updates num_envs].
    rewrite E1. cbn [bind]. rewrite E2. cbn [bind]. rewrite E3. cbn [bind].
    rewrite E4. cbn [bind]. reflexivity.
  - intros [= <- <-].
    eexists. unfold check_total_timesteps, floordiv.
    cbn [arch system total_timesteps num_updates num_envs].
    rewrite E1. cbn [bind]. rewrite E2. cbn [bind]. rewrite E3. cbn [bind].
    rewrite E4. cbn [bind].
    rewrite product_floordiv by assumption. reflexivity.
  - discriminate.
Qed.

(** X22.  When [arch.total_timesteps] is set and [rollout_length],
    [update_batch_size], [num_envs] and the device count are positive, the
    number of updates is rounded down: the steps of the updates,
    [n_devices * num_updates * rollout_length * update_batch_size * num_envs],
    never exceed the total and fall short of it by less than the steps of
    one update. *)
Theorem check_total_timesteps_rounds_down (n_devices total : Z) (c : config) :
  total_timesteps (arch c) = Some total ->
  0 < rollout_length (system c) -> 0 < update_batch_size (system c) ->
  0 < num_envs (arch c) -> 0 < n_devices ->
  let per_update :=
    n_devices * rollout_length (system c) * update_batch_size (system c)
    * num_envs (arch c) in
  exists c1 out updates,
    check_total_timesteps n_devices c = Ok (c1, out) /\
    num_updates (arch c1) = Some updates /\
    updates * per_update <= total < updates * per_update + per_update.
Proof.
  intros Ht H1 H2 H3 H4 per_update.
  unfold check_total_timesteps, floordiv. rewrite Ht.
  replace (rollout_length (system c) =? 0) with false
    by (symmetry; apply Z.eqb_neq; lia).
  cbn [bind].
  replace (update_batch_size (system c) =? 0) with false
    by (symmetry; apply Z.eqb_neq; lia).
  cbn [bind].
  replace (num_envs (arch c) =? 0) with false
    by (symmetry; apply Z.eqb_neq; lia).
  cbn [bind].
  replace (n_devices =? 0) with false by (symmetry; apply Z.eqb_neq; lia).
  cbn [bind].
  eexists _, _, _. split; [reflexivity|]. split; [reflexivity|].
  rewrite (Z.div_div total (rollout_length (system c))
             (update_batch_size (system c))) by lia.
  rewrite (Z.div_div total
             (rollout_length (system c) * update_batch_size (system c))
             (num_envs (arch c))) by nia.
  rewrite (Z.div_div total
             (rollout_length (system c) * update_batch_size (system c)
              * num_envs (arch c)) n_devices) by nia.
  set (p := rollout_length (system c) * update_batch_size (system c)
            * num_envs (arch c) * n_devices).
  assert (Hp : 0 < p) by (subst p; nia).
  replace per_update with p by (subst p per_update; ring).
  pose proof (Z.mul_div_le total p Hp).
  pose proof (Z.mul_succ_div_gt total p Hp). nia.
Qed.
End TotalTimestepsExtras.

(** ** The further properties at concrete inputs *)

(** Side conditions on concrete arrays. *)
Ltac concrete_shape :=
  first [ apply has_shape_iff; reflexivity
        | apply lambda_shape_iff; reflexivity
        | exact I ].

(** A statement about every index below a concrete bound, case by case. *)
Ltac concrete_index t :=
  repeat (destruct t as [|t];
          [first [lia | vm_compute; repeat split; reflexivity] | try lia]).

(** The same for a batch index and a time index. *)
Ltac concrete_indices b t :=
  repeat (destruct b as [|b]; [first [lia | concrete_index t] | try lia]).

Lemma gae_targets_are_lambda_returns_witness :
  let r := NDArray 3 [[1; 1; 1]; [2; 0; 1]]%Z in
  let d := NDArray 3 [[2; 2; 2]; [1; 0; 3]]%Z in
  let v := NDArray 4 [[0; 0; 0; 0]; [5; 1; 2; 1]]%Z in
  let lam := LArray (NDArray 1 [[1]; [0]; [3]]%Z) in
  let res := batch_truncated_generalized_advantage_estimation
               r d lam v true false in
  get (snd res) 1 0 =
  get r 1 0
  .+ get d 1 0
     .* ((one .- lambda_at lam 0 1) .* get v 1 1
         .+ lambda_at lam 0 1 .* get (snd res) 1 1).
Proof.
  cbv zeta.
  refine (@gae_targets_are_lambda_returns Z Z_Scalar Z_ExactArith false true
            2 3 (NDArray 3 [[1; 1; 1]; [2; 0; 1]]%Z)
            (NDArray 3 [[2; 2; 2]; [1; 0; 3]]%Z)
            (NDArray 4 [[0; 0; 0; 0]; [5; 1; 2; 1]]%Z)
            (LArray (NDArray 1 [[1]; [0]; [3]]%Z)) _ _ _ _ 1 0 _ _);
    first [concrete_shape | lia].
Defined.

Lemma n_step_full_horizon_is_gae_target_witness :
  let r := NDArray 3 [[1; 1; 1]; [2; 0; 1]]%Z in
  let d := NDArray 3 [[2; 2; 2]; [1; 0; 3]]%Z in
  let lam := LArray (NDArray 1 [[1]; [0]; [3]]%Z) in
  batch_n_step_bootstrapped_returns
    r d (NDArray 3 [[0; 0; 0]; [1; 2; 1]]%Z) 5 lam true =
  Ok (snd (batch_truncated_generalized_advantage_estimation
             r d lam (NDArray 4 [[0; 0; 0; 0]; [5; 1; 2; 1]]%Z) false false)).
Proof.
  cbv zeta.
  apply (@n_step_full_horizon_is_gae_target Z Z_Scalar Z_ExactArith
           false true 2 2);
    first [concrete_shape | lia | idtac].
  intros b t Hb Ht. concrete_indices b t.
Defined.

Lemma gae_reads_only_own_future_witness :
  let res := batch_truncated_generalized_advantage_estimation
               (NDArray 3 [[1; 1; 1]; [2; 0; 1]]%Z)
               (NDArray 3 [[2; 2; 2]; [1; 0; 3]]%Z)
               (LArray (NDArray 1 [[1]; [0]; [3]]%Z))
               (NDArray 4 [[0; 0; 0; 0]; [5; 1; 2; 1]]%Z) true false in
  let res' := batch_truncated_generalized_advantage_estimation
                (NDArray 3 [[9; 9; 9]; [7; 0; 1]]%Z)
                (NDArray 3 [[0; 0; 0]; [5; 0; 3]]%Z)
                (LArray (NDArray 1 [[2]; [0]; [3]]%Z))
                (NDArray 4 [[1; 1; 1; 1]; [8; 1; 2; 1]]%Z) true false in
  at_time false (fst res) 1 1 = at_time false (fst res') 1 1 /\
  at_time false (snd res) 1 1 = at_time false (snd res') 1 1.
Proof.
  cbv zeta.
  refine (@gae_reads_only_own_future Z Z_Scalar false true 2 3
           (NDArray 3 [[1; 1; 1]; [2; 0; 1]]%Z)
           (NDArray 3 [[2; 2; 2]; [1; 0; 3]]%Z)
           (NDArray 4 [[0; 0; 0; 0]; [5; 1; 2; 1]]%Z)
           (NDArray 3 [[9; 9; 9]; [7; 0; 1]]%Z)
           (NDArray 3 [[0; 0; 0]; [5; 0; 3]]%Z)
           (NDArray 4 [[1; 1; 1; 1]; [8; 1; 2; 1]]%Z)
           (LArray (NDArray 1 [[1]; [0]; [3]]%Z))
           (LArray (NDArray 1 [[2]; [0]; [3]]%Z)) 1 1
           _ _ _ _ _ _ _ _ _ _ _ 1 _ _);
    first [concrete_shape | lia | idtac].
  - intros t Ht0 Ht. concrete_index t.
  - intros t Ht0 Ht. concrete_index t.
Defined.

Lemma gae_advantage_is_weighted_sum_of_residuals_witness :
  let r := NDArray 3 [[1; 1; 1]; [2; 0; 1]]%Z in
  let d := NDArray 3 [[2; 2; 2]; [1; 0; 3]]%Z in
  let v := NDArray 4 [[0; 0; 0; 0]; [5; 1; 2; 1]]%Z in
  let lam := LArray (NDArray 1 [[1]; [0]; [3]]%Z) in
  get (fst (batch_truncated_generalized_advantage_estimation
              r d lam v true false)) 0 0 =
  weighted_sum
    (fun j => get d 0 j .* lambda_at lam j 0)
    (fun j => get r 0 j .+ get d 0 j .* get v 0 (S j) .- get v 0 j)
    0 3.
Proof.
  cbv zeta.
  refine (@gae_advantage_is_weighted_sum_of_residuals Z Z_Scalar Z_ExactArith
            false true 2 3 (NDArray 3 [[1; 1; 1]; [2; 0; 1]]%Z)
            (NDArray 3 [[2; 2; 2]; [1; 0; 3]]%Z)
            (NDArray 4 [[0; 0; 0; 0]; [5; 1; 2; 1]]%Z)
            (LArray (NDArray 1 [[1]; [0]; [3]]%Z)) _ _ _ _ 0 0 _ _);
    first [concrete_shape | lia].
Defined.

Lemma n_step_count_beyond_horizon_is_irrelevant_witness :
  let r := NDArray 3 [[1; 1; 1]; [2; 0; 1]]%Z in
  let d := NDArray 3 [[2; 2; 2]; [1; 0; 3]]%Z in
  let v := NDArray 3 [[0; 0; 0]; [1; 2; 1]]%Z in
  let lam := LArray (NDArray 1 [[1]; [0]; [3]]%Z) in
  batch_n_step_bootstrapped_returns r d v 3 lam true =
  batch_n_step_bootstrapped_returns r d v 7 lam true.
Proof.
  cbv zeta.
  apply (@n_step_count_beyond_horizon_is_irrelevant Z Z_Scalar Z_ExactArith
           true 2 2);
    first [concrete_shape | lia].
Defined.

Lemma n_step_lambda_zero_is_one_step_bootstrap_witness :
  let r := NDArray 3 [[1; 1; 1]; [2; 0; 1]]%Z in
  let d := NDArray 3 [[2; 2; 2]; [1; 0; 3]]%Z in
  let v := NDArray 3 [[0; 0; 0]; [1; 2; 1]]%Z in
  exists out,
    batch_n_step_bootstrapped_returns r d v 2 (LScalar zero) true = Ok out /\
    has_shape 2 3 out /\
    forall b t, b < 2 -> t < 3 ->
      get out b t = get r b t .+ get d b t .* get v b t.
Proof.
  cbv zeta.
  apply (@n_step_lambda_zero_is_one_step_bootstrap Z Z_Scalar Z_ExactArith
           true 2 2);
    first [concrete_shape | lia].
Defined.

Lemma n_step_one_more_step_is_one_backup_witness :
  let r := NDArray 3 [[1; 1; 1]; [2; 0; 1]]%Z in
  let d := NDArray 3 [[2; 2; 2]; [1; 0; 3]]%Z in
  let v := NDArray 3 [[0; 0; 0]; [1; 2; 1]]%Z in
  let lam := LArray (NDArray 1 [[1]; [0]; [3]]%Z) in
  exists out out',
    batch_n_step_bootstrapped_returns r d v 2 lam true = Ok out /\
    batch_n_step_bootstrapped_returns r d v (2 + 1) lam true = Ok out' /\
    forall b t, b < 2 -> S t < 3 ->
      get out' b t =
      get r b t
      .+ get d b t
         .* ((one .- lambda_at lam t b) .* get v b t
             .+ lambda_at lam t b .* get out b (S t)).
Proof.
  cbv zeta.
  apply (@n_step_one_more_step_is_one_backup Z Z_Scalar Z_ExactArith
           true 2 2);
    first [concrete_shape | lia].
Defined.

Lemma off_policy_and_retrace_raise_on_empty_time_axis_witness :
  batch_general_off_policy_returns_from_q_and_v
    (NDArray 2 [[1; 2]]%R) (NDArray 3 [[1; 2; 3]]%R) (NDArray 0 [[]])
    (NDArray 3 [[1; 1; 1]]%R) (NDArray 2 [[1; 1]]%R) false =
    Err IndexError /\
  batch_retrace_continuous
    (NDArray 3 [[0; 1; 2]]%R) (NDArray 2 [[1; 2]]%R)
    (NDArray 3 [[1; 2; 3]]%R) (NDArray 0 [[]])
    (NDArray 3 [[1; 1; 1]]%R) (NDArray 2 [[0; 1]]%R) (LScalar 1%R) false =
    Err IndexError.
Proof.
  apply (@off_policy_and_retrace_raise_on_empty_time_axis R R_Scalar
           R_Transcendental);
    [left; reflexivity | exact I].
Defined.

Lemma retrace_last_error_ignores_q_and_weights_witness :
  let q_tm1 := NDArray 3 [[0; 1; 2]]%R in
  let v := NDArray 3 [[1; 2; 3]]%R in
  let r := NDArray 3 [[1; 1; 1]]%R in
  let d := NDArray 3 [[1; 1; 1]]%R in
  exists out out',
    batch_retrace_continuous q_tm1 (NDArray 2 [[1; 2]]%R) v r d
      (NDArray 2 [[0; 1]]%R) (LScalar 1%R) true = Ok out /\
    batch_retrace_continuous q_tm1 (NDArray 2 [[5; 7]]%R) v r d
      (NDArray 2 [[2; 0]]%R) (LArray (NDArray 1 [[3]]%R)) false = Ok out' /\
    forall b, b < 1 ->
      get out b 2 = get r b 2 .+ get d b 2 .* get v b 2 .- get q_tm1 b 2 /\
      get out' b 2 = get out b 2.
Proof.
  cbv zeta.
  apply (@retrace_last_error_ignores_q_and_weights R R_Scalar
           R_Transcendental true false 1 2);
    concrete_shape.
Defined.

Lemma off_policy_zero_weights_is_one_step_bootstrap_witness :
  let v := NDArray 3 [[1; 2; 3]; [3; 4; 5]]%Z in
  let r := NDArray 3 [[1; 1; 1]; [2; 2; 2]]%Z in
  let d := NDArray 3 [[1; 1; 1]; [1; 0; 1]]%Z in
  exists g,
    batch_general_off_policy_returns_from_q_and_v
      (NDArray 2 [[1; 2]; [3; 4]]%Z) v r d
      (NDArray 2 [[0; 0]; [0; 0]]%Z) false = Ok g /\
    forall b t, b < 2 -> t < 3 ->
      get g b t = get r b t .+ get d b t .* get v b t.
Proof.
  cbv zeta.
  apply (@off_policy_zero_weights_is_one_step_bootstrap Z Z_Scalar
           Z_ExactArith false 2 2);
    first [concrete_shape | idtac].
  intros b t Hb Ht. concrete_indices b t.
Defined.

Lemma off_policy_with_state_values_is_lambda_return_witness :
  let v := NDArray 3 [[1; 2; 3]; [3; 4; 5]]%Z in
  let r := NDArray 3 [[1; 1; 1]; [2; 2; 2]]%Z in
  let d := NDArray 3 [[1; 1; 1]; [1; 0; 1]]%Z in
  let c := NDArray 2 [[1; 2]; [0; 1]]%Z in
  exists g,
    batch_general_off_policy_returns_from_q_and_v
      (NDArray 2 [[1; 2]; [3; 4]]%Z) v r d c false = Ok g /\
    forall b t, b < 2 -> t < 2 ->
      get g b t =
        get r b t
        .+ get d b t
           .* ((one .- get c b t) .* get v b t .+ get c b t .* get g b (S t))
      /\ (get c b t = one ->
          get g b t = get r b t .+ get d b t .* get g b (S t)).
Proof.
  cbv zeta.
  apply (@off_policy_with_state_values_is_lambda_return Z Z_Scalar
           Z_ExactArith false 2 2);
    first [concrete_shape | idtac].
  intros b t Hb Ht. concrete_indices b t.
Defined.

Lemma off_policy_with_state_values_is_gae_target_witness :
  let r := NDArray 3 [[1; 1; 1]; [2; 2; 2]]%Z in
  let d := NDArray 3 [[1; 1; 1]; [1; 0; 1]]%Z in
  batch_general_off_policy_returns_from_q_and_v
    (NDArray 2 [[1; 2]; [3; 4]]%Z) (NDArray 3 [[1; 2; 3]; [3; 4; 5]]%Z) r d
    (NDArray 2 [[1; 2]; [0; 1]]%Z) false =
  Ok (snd (batch_truncated_generalized_advantage_estimation
             r d (LArray (NDArray 2 [[1; 0]; [2; 1]; [7; 7]]%Z))
             (NDArray 4 [[9; 1; 2; 3]; [9; 3; 4; 5]]%Z) true false)).
Proof.
  cbv zeta.
  apply (@off_policy_with_state_values_is_gae_target Z Z_Scalar Z_ExactArith
           false true 2 2);
    first [concrete_shape | idtac];
    intros b t Hb Ht; concrete_indices b t.
Defined.

Lemma retrace_lambda_zero_is_one_step_error_witness :
  let q_tm1 := NDArray 3 [[0; 1; 2]]%R in
  let v := NDArray 3 [[1; 2; 3]]%R in
  let r := NDArray 3 [[1; 1; 1]]%R in
  let d := NDArray 3 [[1; 1; 1]]%R in
  exists out,
    batch_retrace_continuous q_tm1 (NDArray 2 [[1; 2]]%R) v r d
      (NDArray 2 [[0; 1]]%R) (LScalar zero) true = Ok out /\
    forall b t, b < 1 -> t < 3 ->
      get out b t = get r b t .+ get d b t .* get v b t .- get q_tm1 b t.
Proof.
  cbv zeta.
  apply (@retrace_lambda_zero_is_one_step_error R R_Scalar R_ExactArith
           R_Transcendental true 1 2);
    concrete_shape.
Defined.

Lemma retrace_weights_are_clipped_witness :
  let q_tm1 := NDArray 3 [[0; 1; 2]]%R in
  let q_t := NDArray 2 [[1; 2]]%R in
  let v := NDArray 3 [[1; 2; 3]]%R in
  let r := NDArray 3 [[1; 1; 1]]%R in
  let d := NDArray 3 [[1; 1; 1]]%R in
  let log_rhos := NDArray 2 [[0; 1]]%R in
  exists c g out,
    batch_general_off_policy_returns_from_q_and_v q_t v r d c false = Ok g /\
    batch_retrace_continuous q_tm1 q_t v r d log_rhos (LScalar 1%R) true =
      Ok out /\
    (forall b t, b < 1 -> t < 3 ->
       get out b t = (get g b t - get q_tm1 b t)%R) /\
    forall b t, b < 1 -> t < 2 ->
      (0 <= get c b t <= 1)%R /\
      ((0 <= get log_rhos b t)%R -> get c b t = 1%R).
Proof.
  cbv zeta.
  apply (@retrace_weights_are_clipped true 1 2);
    first [concrete_shape | lra].
Defined.

Lemma off_policy_reads_only_own_future_witness :
  exists g g',
    batch_general_off_policy_returns_from_q_and_v
      (NDArray 2 [[1; 2]; [3; 4]]%Z) (NDArray 3 [[1; 2; 3]; [3; 4; 5]]%Z)
      (NDArray 3 [[1; 1; 1]; [2; 2; 2]]%Z) (NDArray 3 [[1; 1; 1]; [1; 0; 1]]%Z)
      (NDArray 2 [[1; 2]; [0; 1]]%Z) false = Ok g /\
    batch_general_off_policy_returns_from_q_and_v
      (NDArray 2 [[0; 0]; [8; 4]]%Z) (NDArray 3 [[0; 0; 0]; [8; 4; 5]]%Z)
      (NDArray 3 [[0; 0; 0]; [8; 2; 2]]%Z) (NDArray 3 [[0; 0; 0]; [8; 0; 1]]%Z)
      (NDArray 2 [[0; 0]; [8; 1]]%Z) false = Ok g' /\
    forall t, 1 <= t -> t <= 2 -> get g 1 t = get g' 1 t.
Proof.
  apply (@off_policy_reads_only_own_future Z Z_Scalar false 2 2);
    first [concrete_shape | lia | idtac];
    intros t Ht0 Ht; concrete_index t.
Defined.

Lemma n_step_reads_only_its_window_witness :
  exists out out',
    batch_n_step_bootstrapped_returns
      (NDArray 4 [[1; 1; 1; 1]; [2; 0; 1; 3]]%Z)
      (NDArray 4 [[2; 2; 2; 2]; [1; 0; 3; 1]]%Z)
      (NDArray 4 [[0; 0; 0; 0]; [1; 2; 1; 4]]%Z) 2
      (LArray (NDArray 1 [[1]; [0]; [3]; [2]]%Z)) true = Ok out /\
    batch_n_step_bootstrapped_returns
      (NDArray 4 [[5; 5; 5; 5]; [2; 0; 6; 6]]%Z)
      (NDArray 4 [[5; 5; 5; 5]; [1; 0; 6; 6]]%Z)
      (NDArray 4 [[5; 5; 5; 5]; [1; 2; 6; 4]]%Z) 2
      (LArray (NDArray 1 [[1]; [0]; [6]; [6]]%Z)) true = Ok out' /\
    get out 1 0 = get out' 1 0.
Proof.
  apply (@n_step_reads_only_its_window Z Z_Scalar true 2 3);
    first [concrete_shape | lia | reflexivity | idtac].
  intros j Hj0 Hj1 Hj2. concrete_index j.
Defined.

Lemma n_step_raises_on_empty_time_axis_witness :
  batch_n_step_bootstrapped_returns
    (NDArray 3 [[1; 1; 1]]%Z) (NDArray 3 [[1; 1; 1]]%Z) (NDArray 0 [[]])
    4 (LScalar 1%Z) true = Err IndexError.
Proof.
  apply (@n_step_raises_on_empty_time_axis Z Z_Scalar);
    [reflexivity | exact I].
Defined.

Lemma gae_zero_discount_stops_bootstrap_witness :
  let r := NDArray 3 [[1; 1; 1]; [2; 0; 1]]%Z in
  let d := NDArray 3 [[2; 2; 2]; [1; 0; 3]]%Z in
  let v := NDArray 4 [[0; 0; 0; 0]; [5; 1; 2; 1]]%Z in
  let res := batch_truncated_generalized_advantage_estimation
               r d (LScalar 1%Z) v true false in
  at_time false (fst res) 1 1 = at_time false r 1 1 .- at_time false v 1 1 /\
  at_time false (snd res) 1 1 = at_time false r 1 1.
Proof.
  cbv zeta.
  apply (@gae_zero_discount_stops_bootstrap Z Z_Scalar Z_ExactArith
           false true 2 3);
    first [concrete_shape | lia | reflexivity].
Defined.

Lemma zero_discount_return_is_the_reward_witness :
  let r := NDArray 3 [[1; 1; 1]; [2; 2; 2]]%Z in
  let d := NDArray 3 [[1; 1; 1]; [1; 0; 1]]%Z in
  exists g out,
    batch_general_off_policy_returns_from_q_and_v
      (NDArray 2 [[1; 2]; [3; 4]]%Z) (NDArray 3 [[1; 2; 3]; [3; 4; 5]]%Z) r d
      (NDArray 2 [[1; 2]; [0; 1]]%Z) false = Ok g /\
    batch_n_step_bootstrapped_returns
      r d (NDArray 3 [[1; 2; 3]; [3; 4; 5]]%Z) 2 (LScalar 1%Z) true = Ok out /\
    get g 1 1 = get r 1 1 /\ get out 1 1 = get r 1 1.
Proof.
  cbv zeta.
  apply (@zero_discount_return_is_the_reward Z Z_Scalar Z_ExactArith
           false 2 2);
    first [concrete_shape | lia | reflexivity].
Defined.

Lemma check_total_timesteps_is_stable_witness :
  exists out',
    TotalTimesteps.check_total_timesteps 2
      (TotalTimesteps.Config
         (TotalTimesteps.ArchConfig (Some 960%Z) (Some 5%Z) 4%Z)
         (TotalTimesteps.SystemConfig 8%Z 3%Z)) =
    Ok (TotalTimesteps.Config
          (TotalTimesteps.ArchConfig (Some 960%Z) (Some 5%Z) 4%Z)
          (TotalTimesteps.SystemConfig 8%Z 3%Z), out').
Proof.
  apply (@TotalTimestepsExtras.check_total_timesteps_is_stable 2
           (TotalTimesteps.Config
              (TotalTimesteps.ArchConfig None (Some 5%Z) 4%Z)
              (TotalTimesteps.SystemConfig 8%Z 3%Z))
           _ []);
    first [reflexivity | cbn; lia].
Defined.

Lemma check_total_timesteps_rounds_down_witness :
  let c := TotalTimesteps.Config
             (TotalTimesteps.ArchConfig (Some 1000%Z) None 4%Z)
             (TotalTimesteps.SystemConfig 8%Z 3%Z) in
  exists c1 out updates,
    TotalTimesteps.check_total_timesteps 2 c = Ok (c1, out) /\
    TotalTimesteps.num_updates (TotalTimesteps.arch c1) = Some updates /\
    (updates * (2 * 8 * 3 * 4) <= 1000 < updates * (2 * 8 * 3 * 4) + 2 * 8 * 3 * 4)%Z.
Proof.
  cbv zeta.
  apply (@TotalTimestepsExtras.check_total_timesteps_rounds_down 2 1000
           (TotalTimesteps.Config
              (TotalTimesteps.ArchConfig (Some 1000%Z) None 4%Z)
              (TotalTimesteps.SystemConfig 8%Z 3%Z)));
    first [reflexivity | cbn; lia].
Defined.
